(** * Dreamy Garden: the snake engine of [game.js], embedded and verified

    The development follows [game.js]:
    - the host's [Math.random] as a stream of samples of [0,1) and [rndInt];
    - the game state [gs] (the fields the simulation reads and writes);
    - [placeFood], [buildSnake], [tick], [die], [startGame], the [keydown]
      handler and the button's [click] handler;
    - the particle pool and [updateParticles].

    JavaScript numbers that only ever hold integers (grid coordinates, the
    score) are [Z]; the particle fields, which hold fractions, are exact
    rationals [Q]. *)

From Stdlib Require Import ZArith QArith Qround Lia.
From stdpp Require Import base list strings gmap.

Close Scope Q_scope.
Local Open Scope Z_scope.

(** ** Constants *)

Definition GRID : Z := 20.
Definition CELL : Z := 25.
Definition SIZE : Z := GRID * CELL.
Definition MAX_PART : nat := 50.
(** [MUSHROOMS.length] and [SPARK_COLS.length] *)
Definition MUSHROOMS_length : Z := 5.
Definition SPARK_COLS_length : Z := 6.

(** ** The host's random source

    [Math.random()] returns a number in [0,1).  A sample is kept as the
    fraction [unum / (unum + ugap + 1)], which lies in [0,1) by construction
    and reaches every rational of that interval. *)

Record unit01 : Type := U01 { unum : nat; ugap : nat }.

Definition uQ (u : unit01) : Q :=
  Z.of_nat (unum u) # Pos.of_succ_nat (unum u + ugap u).

(** [function rndInt(n) { return Math.floor(Math.random()*n); }], on the
    sample [u] that the call of [Math.random] returned. *)
Definition rndInt (n : Z) (u : unit01) : Z :=
  Qfloor (uQ u * inject_Z n).

(** ** Data model *)

Inductive phase_t : Type := idle | playing | paused | dead.

Global Instance phase_eq_dec : EqDecision phase_t.
Proof. solve_decision. Defined.

(** A direction [{x, y}]. *)
Record dirv : Type := Dir { dir_x : Z; dir_y : Z }.

(** A segment [{x, y, px, py}]: current and previous grid cell. *)
Record segment : Type := Seg { x : Z; y : Z; px : Z; py : Z }.

(** The item [{x, y, mush}]. *)
Record food_t : Type := Food { food_x : Z; food_y : Z; mush : Z }.

(** The value under the key ['dg_best'] of [localStorage]: access may throw,
    the key may be absent, or it holds (the text of) a number. *)
Inductive storage : Type :=
| Unavailable
| Absent
| Holds (n : Z).

(** The game state [gs].  [stored] and [rcalls] are the two pieces of the
    host that the simulation touches: the persisted best score and the number
    of calls of [Math.random] made so far (the cursor into the sample
    stream).  The effect pools, the frame counter and the tick anchor are
    modelled with the effect systems below; the engine only advances the
    random cursor for the samples a burst draws. *)
Record gs : Type := GS {
  phase : phase_t;
  snake : list segment;
  dir : dirv;
  nextDir : dirv;
  food : food_t;
  score : Z;
  best : Z;
  dirLocked : bool;
  stored : storage;
  rcalls : nat
}.

Definition set_phase (p : phase_t) (s : gs) : gs :=
  GS p (snake s) (dir s) (nextDir s) (food s) (score s) (best s)
     (dirLocked s) (stored s) (rcalls s).
Definition set_snake (sn : list segment) (s : gs) : gs :=
  GS (phase s) sn (dir s) (nextDir s) (food s) (score s) (best s)
     (dirLocked s) (stored s) (rcalls s).
Definition set_dir (d : dirv) (s : gs) : gs :=
  GS (phase s) (snake s) d (nextDir s) (food s) (score s) (best s)
     (dirLocked s) (stored s) (rcalls s).
Definition set_nextDir (d : dirv) (s : gs) : gs :=
  GS (phase s) (snake s) (dir s) d (food s) (score s) (best s)
     (dirLocked s) (stored s) (rcalls s).
Definition set_food (f : food_t) (s : gs) : gs :=
  GS (phase s) (snake s) (dir s) (nextDir s) f (score s) (best s)
     (dirLocked s) (stored s) (rcalls s).
Definition set_score (n : Z) (s : gs) : gs :=
  GS (phase s) (snake s) (dir s) (nextDir s) (food s) n (best s)
     (dirLocked s) (stored s) (rcalls s).
Definition set_best (n : Z) (s : gs) : gs :=
  GS (phase s) (snake s) (dir s) (nextDir s) (food s) (score s) n
     (dirLocked s) (stored s) (rcalls s).
Definition set_dirLocked (b : bool) (s : gs) : gs :=
  GS (phase s) (snake s) (dir s) (nextDir s) (food s) (score s) (best s)
     b (stored s) (rcalls s).
Definition set_stored (st : storage) (s : gs) : gs :=
  GS (phase s) (snake s) (dir s) (nextDir s) (food s) (score s) (best s)
     (dirLocked s) st (rcalls s).
Definition set_rcalls (c : nat) (s : gs) : gs :=
  GS (phase s) (snake s) (dir s) (nextDir s) (food s) (score s) (best s)
     (dirLocked s) (stored s) c.

(** What a handler does: it returns, it throws (a [TypeError] on reading a
    field of [undefined]; the state carries the writes made before), or its
    loop has not exited within the iterations allowed. *)
Inductive result : Type :=
| Done (s : gs)
| Threw (s : gs)
| Hung.

(** The grid cell of a segment, and the cells of a creature head first. *)
Definition cell (sg : segment) : Z * Z := (x sg, y sg).
Definition cells (sn : list segment) : list (Z * Z) := cell <$> sn.

(** ** Persisted best score *)

(** [function loadBest() { try { return +localStorage.getItem('dg_best')||0; }
    catch { return 0; } }] *)
Definition loadBest (st : storage) : Z :=
  match st with
  | Unavailable => 0
  | Absent => 0
  | Holds n => if decide (n = 0) then 0 else n
  end.

(** [function saveBest(n) { try { localStorage.setItem('dg_best', n); }
    catch {} }] *)
Definition saveBest (n : Z) (st : storage) : storage :=
  match st with
  | Unavailable => Unavailable
  | _ => Holds n
  end.

Section Engine.

(** The sequence of values that [Math.random] returns during the run:
    [random i] is the result of call number [i]. *)
Variable random : nat → unit01.

(** ** Item placement *)

(** The cell drawn by iteration [k] of the loop of [placeFood] when the loop
    starts at call [c] of [Math.random]:
    [x = rndInt(GRID); y = rndInt(GRID)]. *)
Definition attempt (c k : nat) : Z * Z :=
  (rndInt GRID (random (c + 2 * k)), rndInt GRID (random (c + 2 * k + 1))).

(** [do { x = rndInt(GRID); y = rndInt(GRID); } while (occ.has(`${x},${y}`))]
    run for at most [fuel] iterations from call [c]; it gives the cell and
    the cursor after the loop.  [occ] is the set of the keys [`${x},${y}`]
    of the segments; the key of a cell determines the cell, so the set is
    kept as a set of cells. *)
Fixpoint placeFood_loop (fuel : nat) (occ : gset (Z * Z)) (c : nat)
  : option (Z * Z * nat) :=
  match fuel with
  | O => None
  | S f =>
      let x := rndInt GRID (random c) in
      let y := rndInt GRID (random (S c)) in
      if bool_decide ((x, y) ∈ occ)
      then placeFood_loop f occ (S (S c))
      else Some (x, y, S (S c))
  end.

Definition placeFood (fuel : nat) (s : gs) : result :=
  let occ : gset (Z * Z) := list_to_set (cells (snake s)) in
  match placeFood_loop fuel occ (rcalls s) with
  | None => Hung
  | Some (x, y, c) =>
      Done (set_rcalls (S c)
             (set_food (Food x y (rndInt MUSHROOMS_length (random c))) s))
  end.

Definition buildSnake : list segment :=
  let sx := GRID / 2 in
  let sy := GRID / 2 in
  [ Seg sx sy sx sy; Seg (sx - 1) sy (sx - 1) sy; Seg (sx - 2) sy (sx - 2) sy ].

(** ** The tick *)

(** [spawnParticle] calls [Math.random] five times (angle, speed, size,
    colour, decay), so [spawnBurst(cx, cy, n)] makes [5 * n] calls. *)
Definition burst_draws (n : nat) : nat := 5 * n.

(** [die()]: the phase becomes [dead]; reading [gs.snake[0].x] of an empty
    creature throws after that write.  The burst of 35 particles draws from
    the random source; the shake and the overlay are presentation. *)
Definition die (s : gs) : result :=
  let s1 := set_phase dead s in
  match snake s1 with
  | [] => Threw s1
  | _ :: _ => Done (set_rcalls (rcalls s1 + burst_draws 35) s1)
  end.

(** [for (const s of snake) { s.px = s.x; s.py = s.y; }] *)
Definition save_prev (sg : segment) : segment :=
  Seg (x sg) (y sg) (x sg) (y sg).

(** [snake[i].x = snake[i-1].x; snake[i].y = snake[i-1].y] *)
Definition copy_xy (src dst : segment) : segment :=
  Seg (x src) (y src) (px dst) (py dst).

(** [for (let i = snake.length-1; i > 0; i--) { ... }], started at [i]. *)
Fixpoint cascade (i : nat) (sn : list segment) : list segment :=
  match i with
  | O => sn
  | S j =>
      match sn !! j, sn !! S j with
      | Some a, Some b => cascade j (<[S j := copy_xy a b]> sn)
      | _, _ => sn
      end
  end.

(** [snake[0].x = nhx; snake[0].y = nhy] *)
Definition move_head (nhx nhy : Z) (sn : list segment) : list segment :=
  match sn with
  | [] => []
  | h :: t => Seg nhx nhy (px h) (py h) :: t
  end.

(** The self-collision test of step 4:
    [for (let i = 0; i < snake.length - 1; i++)
       if (snake[i].x === nhx && snake[i].y === nhy) { die(); return; }] *)
Definition hits_body (nhx nhy : Z) (sn : list segment) : bool :=
  existsb (λ sg, bool_decide (x sg = nhx) && bool_decide (y sg = nhy))
          (take (length sn - 1) sn).

Definition hits_wall (nhx nhy : Z) : bool :=
  bool_decide (nhx < 0) || bool_decide (GRID ≤ nhx)
  || bool_decide (nhy < 0) || bool_decide (GRID ≤ nhy).

(** [snake.push({ x:tail.x, y:tail.y, px:tail.px, py:tail.py })] with
    [tail = snake[snake.length-1]]. *)
Definition grow (sn : list segment) : option (list segment) :=
  match last sn with
  | Some tl => Some (sn ++ [Seg (x tl) (y tl) (px tl) (py tl)])
  | None => None
  end.

Definition tick (fuel : nat) (s : gs) : result :=
  if negb (bool_decide (phase s = playing)) then Done s else
  let nd := nextDir s in
  let fd := food s in
  (* gs.dir = { ...nextDir }; gs.dirLocked = false; *)
  let s1 := set_dirLocked false (set_dir nd s) in
  (* 1. save all current positions as previous *)
  let sn1 := save_prev <$> snake s in
  let s2 := set_snake sn1 s1 in
  match sn1 with
  | [] => Threw s2
  | h :: _ =>
      (* 2. new head position *)
      let nhx := x h + dir_x nd in
      let nhy := y h + dir_y nd in
      (* 3. walls *)
      if hits_wall nhx nhy then die s2 else
      (* 4. self, the last segment excepted *)
      if hits_body nhx nhy sn1 then die s2 else
      (* 5. food, before cascading *)
      let ate := bool_decide (nhx = food_x fd) && bool_decide (nhy = food_y fd) in
      (* 6. cascade *)
      let sn2 := move_head nhx nhy (cascade (length sn1 - 1) sn1) in
      let s3 := set_snake sn2 s2 in
      (* 7. eat: grow and score *)
      if ate then
        let s4 := set_score (score s3 + 1) s3 in
        let s5 :=
          if bool_decide (score s4 > best s4)
          then set_stored (saveBest (score s4) (stored s4))
                          (set_best (score s4) s4)
          else s4 in
        (* spawnBurst(cx, cy, 16); spawnFloat(cx, cy - CELL) *)
        let s6 := set_rcalls (rcalls s5 + burst_draws 16) s5 in
        match grow (snake s6) with
        | None => Threw s6
        | Some sn3 => placeFood fuel (set_snake sn3 s6)
        end
      else Done s3
  end.

(** ** Round start and input *)

Definition startGame (fuel : nat) (s : gs) : result :=
  placeFood fuel
    (set_dirLocked false
      (set_score 0
        (set_nextDir (Dir 1 0)
          (set_dir (Dir 1 0)
            (set_snake buildSnake
              (set_phase playing s)))))).

Definition keyToDir (k : string) : option dirv :=
  if String.eqb k "ArrowRight" || String.eqb k "d" || String.eqb k "D"
  then Some (Dir 1 0)
  else if String.eqb k "ArrowLeft" || String.eqb k "a" || String.eqb k "A"
  then Some (Dir (-1) 0)
  else if String.eqb k "ArrowUp" || String.eqb k "w" || String.eqb k "W"
  then Some (Dir 0 (-1))
  else if String.eqb k "ArrowDown" || String.eqb k "s" || String.eqb k "S"
  then Some (Dir 0 1)
  else None.

(** The [keydown] listener, on [e.key]. *)
Definition keydown (fuel : nat) (key : string) (s : gs) : result :=
  let ph := phase s in
  let d := dir s in
  if (String.eqb key "Enter" || String.eqb key " ")
     && negb (bool_decide (ph = playing)) && negb (bool_decide (ph = paused))
  then startGame fuel s
  else if (String.eqb key "p" || String.eqb key "P" || String.eqb key "Escape")
          && bool_decide (ph = playing)
  then Done (set_phase paused s)
  else if (String.eqb key "p" || String.eqb key "P" || String.eqb key "Escape"
           || String.eqb key " ")
          && bool_decide (ph = paused)
  then Done (set_phase playing s)
  else if String.eqb key " " && bool_decide (ph = playing)
  then Done (set_phase paused s)
  else if negb (bool_decide (ph = playing)) || dirLocked s then Done s
  else
    match keyToDir key with
    | None => Done s
    | Some nd =>
        if negb (bool_decide (dir_x nd = 0)) && bool_decide (dir_x nd = - dir_x d)
        then Done s
        else if negb (bool_decide (dir_y nd = 0)) && bool_decide (dir_y nd = - dir_y d)
        then Done s
        else Done (set_dirLocked true (set_nextDir nd s))
    end.

(** The listener of the overlay button. *)
Definition click (fuel : nat) (s : gs) : result :=
  if bool_decide (phase s = paused)
  then Done (set_phase playing s)
  else startGame fuel s.

(** [init()]: the state literal with [gs.best = loadBest()]. *)
Definition init (st : storage) : gs :=
  GS idle [] (Dir 1 0) (Dir 1 0) (Food 0 0 0) 0 (loadBest st) false st 0.

(** The events of a session: a key press, a click on the overlay button,
    and a tick fired by the game loop. *)
Inductive event : Type :=
| KeyDown (key : string)
| Click
| Tick.

Definition handle (fuel : nat) (e : event) (s : gs) : result :=
  match e with
  | KeyDown k => keydown fuel k s
  | Click => click fuel s
  | Tick => tick fuel s
  end.

(** The states a session reaches from the initial one. *)
Inductive reachable (st : storage) : gs → Prop :=
| reach_init : reachable st (init st)
| reach_step s fuel e s' :
    reachable st s → handle fuel e s = Done s' → reachable st s'.

(** A sequence of events, handled one after the other; it stops at the
    first handler that does not return. *)
Fixpoint run (fuel : nat) (es : list event) (s : gs) : result :=
  match es with
  | [] => Done s
  | e :: es' =>
      match handle fuel e s with
      | Done s' => run fuel es' s'
      | r => r
      end
  end.

(** A session together with the highest round score it has shown so far:
    the score of every state the session went through counts. *)
Inductive session (st : storage) : gs → Z → Prop :=
| session_init : session st (init st) 0
| session_step s hi fuel e s' :
    session st s hi → handle fuel e s = Done s' →
    session st s' (Z.max hi (score s')).

End Engine.

(** ** Auxiliary notions used to state the properties *)

(** The candidate head cell of the next tick: the head's cell plus the queued
    direction, which the tick commits as the active one before it moves. *)
Definition candidate (s : gs) : option (Z * Z) :=
  match snake s with
  | [] => None
  | h :: _ => Some (x h + dir_x (nextDir s), y h + dir_y (nextDir s))
  end.

Definition in_grid (c : Z * Z) : Prop := 0 ≤ c.1 < GRID ∧ 0 ≤ c.2 < GRID.

(** The cells of every segment but the last. *)
Definition body (sn : list segment) : list (Z * Z) :=
  take (length sn - 1) (cells sn).

Definition food_cell (s : gs) : Z * Z := (food_x (food s), food_y (food s)).

(** The exact reverse of a direction. *)
Definition opposite (d : dirv) : dirv := Dir (- dir_x d) (- dir_y d).

Definition is_dir (d : dirv) : Prop :=
  d = Dir 1 0 ∨ d = Dir (-1) 0 ∨ d = Dir 0 (-1) ∨ d = Dir 0 1.

(** The last two segments are on the same cell. *)
Definition tail_doubled (sn : list segment) : Prop :=
  ∃ front c, cells sn = front ++ [c; c].

(** The cascade as a function of the list: every segment but the first takes
    the cell of the one ahead of it and keeps its own previous cell. *)
Fixpoint shift (prev : segment) (l : list segment) : list segment :=
  match l with
  | [] => []
  | sg :: r => copy_xy prev sg :: shift sg r
  end.

Definition shift_all (l : list segment) : list segment :=
  match l with
  | [] => []
  | h :: t => h :: shift h t
  end.

(** Steps 1 and 6 of the tick together, for the candidate cell [c]. *)
Definition advance (c : Z * Z) (sn : list segment) : list segment :=
  move_head c.1 c.2
    (cascade (length (save_prev <$> sn) - 1) (save_prev <$> sn)).

(** The state a tick leaves when the creature dies, and when it moves
    without eating. *)
Definition died (s : gs) : gs :=
  set_rcalls (rcalls s + burst_draws 35)
    (set_phase dead
      (set_snake (save_prev <$> snake s)
        (set_dirLocked false (set_dir (nextDir s) s)))).

Definition stepped (c : Z * Z) (s : gs) : gs :=
  set_snake (advance c (snake s))
    (set_dirLocked false (set_dir (nextDir s) s)).

(** The state in which [placeFood] is called by a tick that eats. *)
Definition fed (c : Z * Z) (tl : segment) (s : gs) : gs :=
  let sc := score s + 1 in
  let s1 := set_score sc (stepped c s) in
  let s2 := if bool_decide (sc > best s)
            then set_stored (saveBest sc (stored s)) (set_best sc s1)
            else s1 in
  set_snake (advance c (snake s) ++ [tl])
    (set_rcalls (rcalls s + burst_draws 16) s2).

(** ** The draws of [placeFood], enumerated *)

(** The cells of the grid, each once. *)
Definition grid_cells : list (Z * Z) :=
  seqZ 0 GRID ≫= λ x, seqZ 0 GRID ≫= λ y, [(x, y)].

(** All sequences of [n] cells of the grid: what [n] iterations of the loop
    of [placeFood] can draw. *)
Fixpoint all_draws (n : nat) : list (list (Z * Z)) :=
  match n with
  | O => [[]]
  | S m => grid_cells ≫= λ d, (d ::.) <$> all_draws m
  end.

(** A sample of [Math.random] on which [rndInt n] gives [v]. *)
Definition sample_of (n v : Z) : unit01 :=
  U01 (Z.to_nat v) (Z.to_nat (n - 1 - v)).

(** A random source that makes the loop of [placeFood], started at call
    [c], draw the cells [ds] one after the other. *)
Definition source_of (c : nat) (ds : list (Z * Z)) (i : nat) : unit01 :=
  match ds !! ((i - c) `div` 2)%nat with
  | Some d => sample_of GRID (if Nat.even (i - c) then d.1 else d.2)
  | None => U01 0 0
  end.

(** The first of the drawn cells that is not occupied. *)
Fixpoint pick (occ : gset (Z * Z)) (ds : list (Z * Z)) : option (Z * Z) :=
  match ds with
  | [] => None
  | d :: r => if bool_decide (d ∈ occ) then pick occ r else Some d
  end.

(** The cell on which a call of [placeFood] put the item. *)
Definition placed (r : result) : option (Z * Z) :=
  match r with
  | Done s' => Some (food_cell s')
  | _ => None
  end.

(** The number of sequences of [n] draws whose first free cell is [a]. *)
Definition hits (occ : gset (Z * Z)) (a : Z * Z) (n : nat) : nat :=
  length (filter (λ ds, pick occ ds = Some a) (all_draws n)).

(** ** Effect systems: the particle pool

    The fields of a particle hold fractions; they are exact rationals here,
    so the comparisons of [updateParticles] are the ones the source makes
    whenever the values are represented exactly. *)

Record particle : Type := Particle {
  p_x : Q; p_y : Q; p_vx : Q; p_vy : Q;
  p_size : Q; p_color : Z; p_life : Q; p_decay : Q
}.

(** The part of [gs] the particle system works on: [gs.frame],
    [gs.particles], and the cursor into the random stream. *)
Record effects : Type := FX {
  frame : Z;
  particles : list particle;
  fx_rcalls : nat
}.

(** [a < b] on rationals, as a boolean. *)
Definition Qltb (a b : Q) : bool := negb (Qle_bool b a).

(** One iteration of the loop of [updateParticles] on the particle:
    [p.x += p.vx; p.y += p.vy; p.vy += 0.05; p.life -= p.decay]. *)
Definition drift (p : particle) : particle :=
  Particle (p_x p + p_vx p)%Q (p_y p + p_vy p)%Q (p_vx p) (p_vy p + 0.05)%Q
           (p_size p) (p_color p) (p_life p - p_decay p)%Q (p_decay p).

(** [p.life <= 0 || p.y < -10] *)
Definition expired (p : particle) : bool :=
  Qle_bool (p_life p) 0 || Qltb (p_y p) (-10).

(** A particle stays in the pool when it has not expired. *)
Definition alive (p : particle) : Prop := expired p = false.

Global Instance alive_dec p : Decision (alive p).
Proof. unfold alive. apply _. Defined.

(** [for (let i = gs.particles.length-1; i >= 0; i--) { ...;
      if (p.life <= 0 || p.y < -10) gs.particles.splice(i,1); }]
    with [n] iterations left, that is, about to visit index [n - 1]. *)
Fixpoint update_loop (n : nat) (ps : list particle) : list particle :=
  match n with
  | O => ps
  | S i =>
      match ps !! i with
      | Some p =>
          let p' := drift p in
          update_loop i (if expired p' then delete i ps else <[i := p']> ps)
      | None => ps
      end
  end.

Section Effects.

Variable random : nat → unit01.
(** [Math.cos], [Math.sin] and [Math.PI] of the host. *)
Variables Math_cos Math_sin : Q → Q.
Variable Math_PI : Q.

Local Open Scope Q_scope.

(** [spawnParticle(x, y, burst)] with the random cursor at [c]: the particle
    it pushes.  It calls [Math.random] five times. *)
Definition spawnParticle (c : nat) (x y : Q) (burst : bool) : particle :=
  let angle := uQ (random c) * Math_PI * 2 in
  let spd := if burst then 1.5 + uQ (random (c + 1)) * 3.5
             else 0.2 + uQ (random (c + 1)) * 0.5 in
  Particle x y
    (Math_cos angle * spd)
    (Math_sin angle * spd - (if burst then 0 else 0.6))
    (if burst then 2 + uQ (random (c + 2)) * 3 else 1 + uQ (random (c + 2)) * 2)
    (rndInt SPARK_COLS_length (random (c + 3)))
    1
    (if burst then 0.022 + uQ (random (c + 4)) * 0.018
     else 0.007 + uQ (random (c + 4)) * 0.006).

(** [for (let i=0;i<n;i++) spawnParticle(cx, cy, true)] *)
Fixpoint spawnBurst (cx cy : Q) (n : nat) (e : effects) : effects :=
  match n with
  | O => e
  | S m =>
      spawnBurst cx cy m
        (FX (frame e)
            (particles e ++ [spawnParticle (fx_rcalls e) cx cy true])
            (fx_rcalls e + 5))
  end.

(** The ambient spawn at the head of [updateParticles]:
    [if (gs.frame % 5 === 0 && gs.particles.length < MAX_PART)
       spawnParticle(Math.random()*SIZE, SIZE+5, false)]. *)
Definition ambient (e : effects) : effects :=
  if bool_decide (Z.rem (frame e) 5 = 0%Z)
     && bool_decide (length (particles e) < MAX_PART)%nat
  then FX (frame e)
          (particles e ++
             [spawnParticle (S (fx_rcalls e))
                (uQ (random (fx_rcalls e)) * inject_Z SIZE)
                (inject_Z SIZE + 5) false])
          (fx_rcalls e + 6)
  else e.

Definition updateParticles (e : effects) : effects :=
  let e1 := ambient e in
  FX (frame e1)
     (update_loop (length (particles e1)) (particles e1))
     (fx_rcalls e1).

End Effects.

(** The visible area is the square [0, SIZE] on both axes; a position is
    outside it with margin [m] when it is beyond an edge by more than [m]. *)
Definition outside_visible (m : Q) (p : particle) : Prop :=
  (p_x p < - m ∨ inject_Z SIZE + m < p_x p
   ∨ p_y p < - m ∨ inject_Z SIZE + m < p_y p)%Q.


(** ** Concrete runs *)

(** A random source whose first two samples place the first item right
    ahead of the head, at (11,10); every later sample is 0. *)
Definition rnd_ahead (i : nat) : unit01 :=
  match i with
  | 0%nat => U01 11 8
  | 1%nat => U01 10 9
  | _ => U01 0 0
  end.

(** The round started from a fresh page with [rnd_ahead]. *)
Definition round_start : gs :=
  GS playing buildSnake (Dir 1 0) (Dir 1 0) (Food 11 10 0) 0 0 false Absent 3.

(** [round_start] one tick later: the item was eaten. *)
Definition after_eat : gs :=
  GS playing
     [Seg 11 10 10 10; Seg 10 10 9 10; Seg 9 10 8 10; Seg 9 10 8 10]
     (Dir 1 0) (Dir 1 0) (Food 0 0 0) 1 1 false (Holds 1) 86.

(** [round_start] after the key [w]: a turn upwards is queued. *)
Definition turning : gs :=
  GS playing buildSnake (Dir 1 0) (Dir 0 (-1)) (Food 11 10 0) 0 0 true Absent 3.

(** The head is at the right edge, moving right. *)
Definition at_wall : gs :=
  GS playing [Seg 19 10 18 10; Seg 18 10 17 10; Seg 17 10 16 10]
     (Dir 1 0) (Dir 1 0) (Food 0 0 0) 0 0 false Absent 3.

(** The head at (5,5) turns right into the fourth of five segments. *)
Definition coiled : gs :=
  GS playing
     [Seg 5 5 5 6; Seg 5 6 6 6; Seg 6 6 6 5; Seg 6 5 7 5; Seg 7 5 8 5]
     (Dir 0 (-1)) (Dir 1 0) (Food 0 0 0) 2 2 false (Holds 2) 175.

(** A round of [rnd_ahead] in which the creature, four segments long, has
    turned in a square and is about to move its head into the cell that its
    last segment is leaving. *)
Definition chasing : gs :=
  GS playing
     [Seg 11 9 12 9; Seg 12 9 12 10; Seg 12 10 11 10; Seg 11 10 10 10]
     (Dir (-1) 0) (Dir 0 1) (Food 0 0 0) 1 1 true (Holds 1) 86.

(** The round started with [rnd_ahead] when the store held -3. *)
Definition below_zero : gs :=
  GS playing buildSnake (Dir 1 0) (Dir 1 0) (Food 11 10 0) 0 (-3) false
     (Holds (-3)) 3.

(** A creature that covers the whole grid, row by row. *)
Definition full_snake : list segment :=
  seqZ 0 GRID ≫= λ y, seqZ 0 GRID ≫= λ x, [Seg x y x y].

Definition grid_full : gs :=
  GS playing full_snake (Dir 1 0) (Dir 1 0) (Food 0 0 0) 0 0 false Absent 0.

(** A burst particle that has flown out through the right edge. *)
Definition stray : particle := Particle 600 250 1 0 2 0 1 (1 # 4).

Definition stray_pool : effects := FX 1 [stray] 0.

(** * Properties *)

(** Reduce the projections of updated states, and nothing else. *)
Ltac simpl_gs :=
  cbn [phase snake dir nextDir food score best dirLocked stored rcalls
       set_phase set_snake set_dir set_nextDir set_food set_score set_best
       set_dirLocked set_stored set_rcalls] in *.

(** ** The random source *)

Lemma rndInt_range n u : 0 < n → 0 ≤ rndInt n u < n.
Proof.
  intros Hn. unfold rndInt, uQ. destruct u as [a k]. cbn [unum ugap].
  unfold Qfloor, Qmult, inject_Z. cbn [Qnum Qden].
  rewrite Pos.mul_1_r.
  assert (Hd : Z.pos (Pos.of_succ_nat (a + k)) = Z.of_nat a + Z.of_nat k + 1) by lia.
  rewrite Hd. split.
  - apply Z.div_pos; lia.
  - apply Z.div_lt_upper_bound; nia.
Qed.

(** Every value below [n] is the result of [rndInt n] on some sample. *)
Lemma rndInt_onto n v : 0 ≤ v < n → rndInt n (U01 (Z.to_nat v) (Z.to_nat (n - 1 - v))) = v.
Proof.
  intros Hv. unfold rndInt, uQ. cbn [unum ugap].
  unfold Qfloor, Qmult, inject_Z. cbn [Qnum Qden].
  rewrite Pos.mul_1_r.
  assert (Hd : Z.pos (Pos.of_succ_nat (Z.to_nat v + Z.to_nat (n - 1 - v))) = n) by lia.
  rewrite Hd, Z2Nat.id by lia. apply Z.div_mul. lia.
Qed.

Section EngineFacts.
Variable random : nat → unit01.

Lemma attempt_in_grid c k : in_grid (attempt random c k).
Proof.
  unfold in_grid, attempt. cbn.
  split; apply rndInt_range; done.
Qed.

Lemma attempt_0 c : attempt random c 0 = (rndInt GRID (random c), rndInt GRID (random (S c))).
Proof.
  unfold attempt. replace (c + 2 * 0)%nat with c by lia.
  by replace (c + 1)%nat with (S c) by lia.
Qed.

Lemma attempt_S c k : attempt random (S (S c)) k = attempt random c (S k).
Proof.
  unfold attempt. by replace (S (S c) + 2 * k)%nat with (c + 2 * S k)%nat by lia.
Qed.

Lemma placeFood_loop_Some fuel occ : ∀ c cl c',
  placeFood_loop random fuel occ c = Some (cl, c') →
  ∃ k, (k < fuel)%nat ∧ cl = attempt random c k ∧ c' = (c + 2 * k + 2)%nat
       ∧ (cl ∉ occ) ∧ (∀ j, (j < k)%nat → attempt random c j ∈ occ).
Proof.
  induction fuel as [|f IH]; intros c cl c' H; [discriminate|].
  cbn [placeFood_loop] in H. case_bool_decide as Hocc.
  - destruct (IH _ _ _ H) as (k & Hk & -> & -> & Hfree & Hbefore).
    exists (S k). rewrite <- attempt_S.
    split; [lia|]. split; [done|]. split; [lia|]. split; [done|].
    intros [|j] Hj.
    + by rewrite attempt_0.
    + rewrite <- attempt_S. apply Hbefore. lia.
  - injection H as <- <-. exists 0%nat. rewrite attempt_0.
    split; [lia|]. split; [done|]. split; [lia|]. split; [done|].
    intros; lia.
Qed.

Lemma placeFood_loop_first occ k : ∀ fuel c,
  (k < fuel)%nat →
  (∀ j, (j < k)%nat → attempt random c j ∈ occ) →
  attempt random c k ∉ occ →
  placeFood_loop random fuel occ c
  = Some (attempt random c k, (c + 2 * k + 2)%nat).
Proof.
  induction k as [|k IH]; intros fuel c Hk Hbefore Hfree;
    (destruct fuel as [|f]; [lia|]); cbn [placeFood_loop].
  - rewrite attempt_0 in *.
    rewrite bool_decide_eq_false_2 by done.
    do 2 f_equal. lia.
  - pose proof (Hbefore 0%nat ltac:(lia)) as H0. rewrite attempt_0 in H0.
    rewrite bool_decide_eq_true_2 by done.
    rewrite (IH f (S (S c))).
    + rewrite attempt_S. do 2 f_equal. lia.
    + lia.
    + intros j Hj. rewrite attempt_S. apply Hbefore. lia.
    + by rewrite attempt_S.
Qed.

(** Among the attempts, a free one is preceded by a first free one. *)
Lemma first_free (occ : gset (Z * Z)) c k :
  (∀ j, (j < k)%nat → attempt random c j ∈ occ)
  ∨ ∃ k0, (k0 < k)%nat ∧ (attempt random c k0 ∉ occ)
          ∧ (∀ j, (j < k0)%nat → attempt random c j ∈ occ).
Proof.
  induction k as [|k [IH|IH]].
  - left. intros; lia.
  - destruct (decide (attempt random c k ∈ occ)) as [Hin|Hout].
    + left. intros j Hj. destruct (decide (j = k)) as [->|]; [done|].
      apply IH. lia.
    + right. exists k. split; [lia|done].
  - right. destruct IH as (k0 & ? & ? & ?). exists k0. split; [lia|done].
Qed.

Lemma placeFood_loop_free fuel occ c k :
  (k < fuel)%nat → attempt random c k ∉ occ →
  ∃ k0, (k0 ≤ k)%nat ∧
    placeFood_loop random fuel occ c
    = Some (attempt random c k0, (c + 2 * k0 + 2)%nat).
Proof.
  intros Hk Hfree.
  destruct (first_free occ c (S k)) as [Hall|(k0 & Hk0 & Hf0 & Hb0)].
  - destruct Hfree. apply Hall. lia.
  - exists k0. split; [lia|]. apply placeFood_loop_first; [lia|done..].
Qed.

Lemma placeFood_loop_full fuel occ : ∀ c,
  (∀ cl, in_grid cl → cl ∈ occ) → placeFood_loop random fuel occ c = None.
Proof.
  induction fuel as [|f IH]; intros c Hfull; [done|]. cbn [placeFood_loop].
  rewrite bool_decide_eq_true_2; [by apply IH|].
  rewrite <- attempt_0. apply Hfull, attempt_in_grid.
Qed.


(** *** The cascade loop computes [shift_all] *)

Lemma shift_snoc prev l a b :
  shift prev (l ++ [a; b]) = shift prev (l ++ [a]) ++ [copy_xy a b].
Proof.
  revert prev. induction l as [|c l IH]; intros prev; cbn; [done|].
  by rewrite IH.
Qed.

Lemma shift_all_snoc l a b :
  shift_all (l ++ [a; b]) = shift_all (l ++ [a]) ++ [copy_xy a b].
Proof. destruct l as [|h t]; cbn; [done|]. by rewrite shift_snoc. Qed.

Lemma cascade_app j : ∀ l a r,
  length l = j → cascade j (l ++ a :: r) = shift_all (l ++ [a]) ++ r.
Proof.
  induction j as [|j IH]; intros l a r Hl.
  - destruct l; [done | discriminate].
  - destruct l as [|a' l' _] using rev_ind; [discriminate|].
    rewrite length_app in Hl. cbn in Hl.
    assert (Hj : length l' = j) by lia.
    cbn [cascade].
    assert (H1 : ((l' ++ [a']) ++ a :: r) !! j = Some a').
    { rewrite <- app_assoc. by apply list_lookup_middle. }
    assert (H2 : ((l' ++ [a']) ++ a :: r) !! S j = Some a).
    { apply list_lookup_middle. rewrite length_app. cbn. lia. }
    rewrite H1, H2.
    assert (H3 : <[S j:=copy_xy a' a]> ((l' ++ [a']) ++ a :: r)
                 = l' ++ a' :: (copy_xy a' a :: r)).
    { rewrite insert_app_r_alt by (rewrite length_app; cbn; lia).
      rewrite length_app. cbn [length].
      replace (S j - (length l' + 1))%nat with 0%nat by lia.
      cbn. by rewrite <- app_assoc. }
    rewrite H3, (IH l' a' _ Hj).
    rewrite <- (app_assoc l' [a'] [a]). cbn [app].
    rewrite shift_all_snoc. by rewrite <- app_assoc.
Qed.

Lemma cascade_all h t :
  cascade (length (h :: t) - 1) (h :: t) = h :: shift h t.
Proof.
  destruct t as [|a t' _] using rev_ind.
  - done.
  - replace (length (h :: t' ++ [a]) - 1)%nat with (length (h :: t')).
    2:{ cbn. rewrite length_app. cbn. lia. }
    change (h :: t' ++ [a]) with ((h :: t') ++ [a]).
    rewrite (cascade_app _ (h :: t') a [] eq_refl).
    by rewrite app_nil_r.
Qed.

Lemma cells_shift prev l :
  cells (shift prev l) = take (length l) (cell prev :: cells l).
Proof.
  revert prev. induction l as [|a l IH]; intros prev; [done|].
  cbn. f_equal. apply IH.
Qed.

Lemma length_shift prev l : length (shift prev l) = length l.
Proof. revert prev. induction l; intros; cbn; auto. Qed.

Lemma cells_save_prev sn : cells (save_prev <$> sn) = cells sn.
Proof. unfold cells. rewrite <- list_fmap_compose. by apply list_fmap_ext. Qed.

Lemma body_save_prev sn : body (save_prev <$> sn) = body sn.
Proof. unfold body. by rewrite cells_save_prev, length_fmap. Qed.

Lemma body_cons h t : body (h :: t) = take (length t) (cell h :: cells t).
Proof. unfold body. cbn [length]. by rewrite Nat.sub_1_r. Qed.

(** What [advance] does to a creature [h :: t]. *)
Lemma advance_cons c h t :
  advance c (h :: t)
  = Seg c.1 c.2 (x h) (y h) :: shift (save_prev h) (save_prev <$> t).
Proof.
  unfold advance. rewrite fmap_cons, cascade_all. done.
Qed.

Lemma cells_advance c h t : cells (advance c (h :: t)) = c :: body (h :: t).
Proof.
  rewrite advance_cons, body_cons. cbn [cells fmap list_fmap].
  fold (cells (shift (save_prev h) (save_prev <$> t))).
  rewrite cells_shift, length_fmap.
  fold (cells (save_prev <$> t)). rewrite cells_save_prev.
  by destruct c.
Qed.

Lemma length_advance c sn : length (advance c sn) = length sn.
Proof.
  destruct sn as [|h t]; [done|].
  rewrite advance_cons. cbn. by rewrite length_shift, length_fmap.
Qed.

(** The previous cell of every segment after [advance] is its cell before. *)
Lemma prev_advance c sn :
  (λ sg, (px sg, py sg)) <$> advance c sn = cells sn.
Proof.
  destruct sn as [|h t]; [done|].
  rewrite advance_cons. cbn. f_equal.
  generalize (save_prev h). induction t as [|a t IH]; intros p; [done|].
  cbn. f_equal. apply IH.
Qed.


(** *** The collision tests *)

Lemma hits_wall_spec a b : hits_wall a b = true ↔ ¬ in_grid (a, b).
Proof.
  unfold hits_wall, in_grid. cbn.
  repeat case_bool_decide; cbn; split; intros; try done; lia.
Qed.

Lemma hits_body_spec a b sn : hits_body a b sn = true ↔ (a, b) ∈ body sn.
Proof.
  unfold hits_body, body, cells. rewrite <- fmap_take.
  rewrite existsb_exists. setoid_rewrite <- list_elem_of_In.
  rewrite list_elem_of_fmap. split.
  - intros (sg & Hin & H). exists sg. split; [|done].
    apply andb_true_iff in H as [H1 H2].
    apply bool_decide_eq_true in H1, H2. unfold cell. by subst.
  - intros (sg & Heq & Hin). exists sg. split; [done|].
    unfold cell in Heq. injection Heq as -> ->.
    by rewrite !bool_decide_eq_true_2.
Qed.

Lemma candidate_Some s c :
  candidate s = Some c →
  ∃ h t, snake s = h :: t ∧ c = (x h + dir_x (nextDir s), y h + dir_y (nextDir s)).
Proof.
  unfold candidate. destruct (snake s) as [|h t]; [done|].
  intros [= <-]. eauto.
Qed.

(** *** The three ways a tick ends *)

Lemma tick_not_playing fuel s : phase s ≠ playing → tick random fuel s = Done s.
Proof. intros H. unfold tick. by rewrite bool_decide_eq_false_2. Qed.

Lemma tick_dies fuel s c :
  phase s = playing → candidate s = Some c →
  ¬ in_grid c ∨ c ∈ body (snake s) →
  tick random fuel s = Done (died s).
Proof.
  intros Hp Hc Hcol. destruct (candidate_Some _ _ Hc) as (h & t & Hsn & ->).
  unfold tick, died. rewrite bool_decide_eq_true_2 by done. cbn [negb].
  rewrite Hsn. cbn [fmap list_fmap]. cbn [save_prev x y].
  destruct (hits_wall _ _) eqn:Hw; [done|].
  destruct Hcol as [Hcol|Hcol].
  - apply hits_wall_spec in Hcol. congruence.
  - change (save_prev h :: (save_prev <$> t)) with (save_prev <$> (h :: t)).
    rewrite <- Hsn.
    rewrite <- body_save_prev in Hcol.
    apply hits_body_spec in Hcol. rewrite Hcol. by rewrite Hsn.
Qed.

Lemma last_advance c sn : sn ≠ [] → is_Some (last (advance c sn)).
Proof.
  intros Hne. apply last_is_Some. intros Hnil.
  apply (f_equal length) in Hnil. rewrite length_advance in Hnil.
  by destruct sn.
Qed.

Lemma tick_survives fuel s c :
  phase s = playing → candidate s = Some c →
  in_grid c → c ∉ body (snake s) →
  ∃ tl, last (advance c (snake s)) = Some tl ∧
    tick random fuel s
    = if bool_decide (c = food_cell s)
      then placeFood random fuel (fed c tl s)
      else Done (stepped c s).
Proof.
  intros Hp Hc Hin Hbody. destruct (candidate_Some _ _ Hc) as (h & t & Hsn & ->).
  destruct (last_advance (x h + dir_x (nextDir s), y h + dir_y (nextDir s))
              (snake s)) as [tl Htl]; [by rewrite Hsn|].
  exists tl. split; [done|].
  assert (Hw : hits_wall (x h + dir_x (nextDir s)) (y h + dir_y (nextDir s)) = false).
  { destruct (hits_wall _ _) eqn:Hw; [|done]. by apply hits_wall_spec in Hw. }
  assert (Hb : hits_body (x h + dir_x (nextDir s)) (y h + dir_y (nextDir s))
                 (save_prev <$> snake s) = false).
  { destruct (hits_body _ _ _) eqn:Hb; [|done].
    apply hits_body_spec in Hb. by rewrite body_save_prev in Hb. }
  unfold tick. rewrite bool_decide_eq_true_2 by done. cbn [negb].
  unfold advance in Htl.
  rewrite Hsn in Hb, Htl |- *. cbn [fmap list_fmap fst snd] in Hb, Htl |- *.
  cbn [save_prev x y] in Hb |- *. rewrite Hw, Hb.
  unfold food_cell.
  assert (Hate : bool_decide (x h + dir_x (nextDir s) = food_x (food s))
                 && bool_decide (y h + dir_y (nextDir s) = food_y (food s))
                 = bool_decide ((x h + dir_x (nextDir s), y h + dir_y (nextDir s))
                                = (food_x (food s), food_y (food s)))).
  { repeat case_bool_decide; try done; congruence. }
  rewrite Hate. clear Hate.
  destruct (bool_decide (_ = (_, _))); [|unfold stepped, advance; by rewrite Hsn].
  unfold fed, stepped, advance.
  rewrite Hsn. cbn [fmap list_fmap].
  cbn [phase snake dir nextDir food score best dirLocked stored rcalls
       set_phase set_snake set_dir set_nextDir set_food set_score set_best
       set_dirLocked set_stored set_rcalls fst snd].
  destruct (bool_decide (score s + 1 > best s));
    cbn [phase snake dir nextDir food score best dirLocked stored rcalls
         set_phase set_snake set_dir set_nextDir set_food set_score set_best
         set_dirLocked set_stored set_rcalls];
    unfold grow;
    cbn [phase snake dir nextDir food score best dirLocked stored rcalls
         set_phase set_snake set_dir set_nextDir set_food set_score set_best
         set_dirLocked set_stored set_rcalls];
    rewrite Htl; by destruct tl.
Qed.


(** *** [placeFood] on states *)

Lemma placeFood_Done fuel s s' :
  placeFood random fuel s = Done s' →
  ∃ k, (k < fuel)%nat
    ∧ food_cell s' = attempt random (rcalls s) k
    ∧ (food_cell s' ∉ cells (snake s))
    ∧ (∀ j, (j < k)%nat → attempt random (rcalls s) j ∈ cells (snake s))
    ∧ mush (food s') = rndInt MUSHROOMS_length (random (rcalls s + 2 * k + 2))
    ∧ rcalls s' = (rcalls s + 2 * k + 3)%nat
    ∧ phase s' = phase s ∧ snake s' = snake s ∧ dir s' = dir s
    ∧ nextDir s' = nextDir s ∧ score s' = score s ∧ best s' = best s
    ∧ dirLocked s' = dirLocked s ∧ stored s' = stored s.
Proof.
  unfold placeFood. intros H.
  destruct (placeFood_loop _ _ _ _) as [[[a b] c']|] eqn:Hl; [|done].
  injection H as <-.
  apply placeFood_loop_Some in Hl as (k & Hk & Hcl & -> & Hfree & Hbefore).
  exists k. cbn. rewrite <- Hcl.
  split; [done|]. split; [done|].
  split; [by rewrite elem_of_list_to_set in Hfree|].
  split; [intros j Hj; specialize (Hbefore j Hj);
          by rewrite elem_of_list_to_set in Hbefore|].
  split; [done|]. split; [lia|]. done.
Qed.

Lemma placeFood_returns fuel s k :
  (k < fuel)%nat → attempt random (rcalls s) k ∉ cells (snake s) →
  ∃ s', placeFood random fuel s = Done s'.
Proof.
  intros Hk Hfree. unfold placeFood.
  destruct (placeFood_loop_free fuel (list_to_set (cells (snake s)))
              (rcalls s) k Hk) as (k0 & _ & ->).
  - by rewrite elem_of_list_to_set.
  - destruct (attempt random (rcalls s) k0). eauto.
Qed.

Lemma placeFood_full fuel s :
  (∀ c, in_grid c → c ∈ cells (snake s)) → placeFood random fuel s = Hung.
Proof.
  intros Hfull. unfold placeFood. rewrite placeFood_loop_full; [done|].
  intros c Hc. rewrite elem_of_list_to_set. by apply Hfull.
Qed.

Lemma placeFood_no_throw fuel s s' : placeFood random fuel s ≠ Threw s'.
Proof.
  unfold placeFood. by destruct (placeFood_loop _ _ _ _) as [[[a b] c']|].
Qed.

Lemma startGame_Done fuel s s' :
  startGame random fuel s = Done s' →
  phase s' = playing ∧ snake s' = buildSnake ∧ dir s' = Dir 1 0
  ∧ nextDir s' = Dir 1 0 ∧ score s' = 0 ∧ best s' = best s
  ∧ dirLocked s' = false ∧ stored s' = stored s
  ∧ (food_cell s' ∉ cells buildSnake) ∧ in_grid (food_cell s').
Proof.
  unfold startGame. intros H.
  apply placeFood_Done in H
    as (k & _ & Hf & Hfree & _ & _ & _ & -> & -> & -> & -> & -> & -> & -> & ->).
  cbn [phase snake dir nextDir food score best dirLocked stored rcalls
       set_phase set_snake set_dir set_nextDir set_food set_score set_best
       set_dirLocked set_stored set_rcalls] in *.
  do 8 (split; [done|]). split; [done|].
  rewrite Hf. apply attempt_in_grid.
Qed.

(** *** The input handlers *)

Lemma keyToDir_is_dir k nd : keyToDir k = Some nd → is_dir nd.
Proof.
  unfold keyToDir, is_dir.
  repeat (destruct (_ || _); [intros [= <-]; tauto|]). done.
Qed.

Lemma is_dir_not_opposite d : is_dir d → d ≠ opposite d.
Proof. by intros [-> | [-> | [-> | ->]]]. Qed.

(** A direction key is none of the keys that start, pause or resume. *)
Lemma keyToDir_not_control k nd :
  keyToDir k = Some nd →
  String.eqb k "Enter" = false ∧ String.eqb k " " = false
  ∧ String.eqb k "p" = false ∧ String.eqb k "P" = false
  ∧ String.eqb k "Escape" = false.
Proof.
  unfold keyToDir. intros H.
  repeat split;
    match goal with
    | |- String.eqb k ?c = false =>
        destruct (String.eqb_spec k c) as [-> | ]; [discriminate H | done]
    end.
Qed.

(** The five outcomes of a key press. *)
Lemma keydown_inv fuel key s s' :
  keydown random fuel key s = Done s' →
  (phase s ≠ playing ∧ phase s ≠ paused ∧ startGame random fuel s = Done s')
  ∨ (phase s = playing ∧ s' = set_phase paused s)
  ∨ (phase s = paused ∧ s' = set_phase playing s)
  ∨ s' = s
  ∨ (∃ nd, keyToDir key = Some nd ∧ phase s = playing ∧ dirLocked s = false
        ∧ nd ≠ opposite (dir s) ∧ s' = set_dirLocked true (set_nextDir nd s)).
Proof.
  unfold keydown. destruct (keyToDir key) as [nd|] eqn:Hk.
  - destruct (keyToDir_not_control _ _ Hk) as (-> & -> & -> & -> & ->).
    pose proof (keyToDir_is_dir _ _ Hk) as Hnd.
    cbn [negb andb orb].
    destruct (phase s) eqn:Hph; destruct (dirLocked s) eqn:Hlk;
      rewrite ?bool_decide_eq_true_2 by done;
      rewrite ?bool_decide_eq_false_2 by done; cbn [negb andb orb];
      try (intros [= <-]; by do 3 right; left).
    repeat case_bool_decide; cbn [negb andb]; intros [= <-];
      try by (do 3 right; left).
    all: do 4 right; exists nd; split_and!; try done.
    all: intros ->; unfold opposite in *; cbn [dir_x dir_y] in *.
    all: destruct Hnd as [Hnd|[Hnd|[Hnd|Hnd]]]; injection Hnd as ? ?; lia.
  - destruct (phase s) eqn:Hph;
      rewrite ?bool_decide_eq_true_2 by done;
      rewrite ?bool_decide_eq_false_2 by done;
      rewrite ?andb_false_r, ?andb_true_r; cbn [negb andb orb];
      repeat (match goal with
              | |- context [if ?b then _ else _] => destruct b
              end);
      intros H; try injection H as <-; intuition congruence.
Qed.
End EngineFacts.

(** ** The tick, the handlers and the reachable states *)

Section EngineClaims.

Variable random : nat → unit01.

(** C3.  A tick in phase [playing] whose candidate head cell lies outside
    the grid in either axis ends with the phase [dead]; no cascade is
    performed: every segment keeps its current cell (only its previous cell
    is overwritten with the current one), so the cells and the number of
    segments are those before the tick. *)
Theorem tick_wall_collision fuel s c :
  phase s = playing → candidate s = Some c → ¬ in_grid c →
  ∃ s', tick random fuel s = Done s' ∧ phase s' = dead
    ∧ snake s' = save_prev <$> snake s
    ∧ cells (snake s') = cells (snake s)
    ∧ length (snake s') = length (snake s).
Proof.
  intros Hp Hc Hout. exists (died s).
  split; [apply (tick_dies random fuel s c); auto|].
  unfold died. simpl_gs.
  split; [done|]. split; [done|].
  by rewrite cells_save_prev, length_fmap.
Qed.

Lemma length_body sn : length (body sn) = (length sn - 1)%nat.
Proof.
  unfold body, cells. rewrite length_take, length_fmap. lia.
Qed.

(** The creature in the state [fed]: the moved creature with its last
    segment repeated. *)
Lemma fed_fields c tl s :
  snake (fed c tl s) = advance c (snake s) ++ [tl]
  ∧ score (fed c tl s) = score s + 1
  ∧ phase (fed c tl s) = phase s
  ∧ rcalls (fed c tl s) = (rcalls s + burst_draws 16)%nat
  ∧ dir (fed c tl s) = nextDir s ∧ nextDir (fed c tl s) = nextDir s
  ∧ dirLocked (fed c tl s) = false
  ∧ best (fed c tl s) = Z.max (best s) (score s + 1)
  ∧ stored (fed c tl s)
    = (if bool_decide (score s + 1 > best s)
       then saveBest (score s + 1) (stored s) else stored s).
Proof.
  unfold fed, stepped. case_bool_decide; simpl_gs; split_and!; try done; lia.
Qed.

Lemma fed_occupied c tl s cl :
  snake s ≠ [] → last (advance c (snake s)) = Some tl →
  cl ∈ cells (snake (fed c tl s)) ↔ cl ∈ c :: body (snake s).
Proof.
  intros Hne Htl. destruct (fed_fields c tl s) as (-> & _).
  destruct (snake s) as [|h t] eqn:Hsn; [done|].
  unfold cells. rewrite fmap_app. fold (cells (advance c (h :: t))).
  rewrite cells_advance. cbn [fmap list_fmap].
  assert (Hl : cell tl ∈ c :: body (h :: t)).
  { rewrite <- cells_advance. unfold cells. apply list_elem_of_fmap.
    exists tl. split; [done|]. apply last_Some in Htl as [l' ->].
    apply elem_of_app. right. by left. }
  rewrite elem_of_app, list_elem_of_singleton. split; [|tauto].
  by intros [?| ->].
Qed.

(** What a tick that eats leaves, once [placeFood] has returned. *)
Lemma tick_eats_Done fuel s c s' :
  phase s = playing → candidate s = Some c →
  in_grid c → c ∉ body (snake s) → c = food_cell s →
  tick random fuel s = Done s' →
  ∃ front tl,
    snake s' = front ++ [tl; tl]
    ∧ front ++ [tl] = advance c (snake s)
    ∧ cells (front ++ [tl]) = c :: body (snake s)
    ∧ Some (px tl, py tl) = last (cells (snake s))
    ∧ score s' = score s + 1
    ∧ phase s' = playing
    ∧ (food_cell s' ∉ cells (snake s'))
    ∧ in_grid (food_cell s')
    ∧ best s' = Z.max (best s) (score s + 1).
Proof.
  intros Hp Hc Hin Hfree Hfood Ht.
  destruct (tick_survives random fuel s c Hp Hc Hin Hfree) as (tl & Htl & Heq).
  rewrite Heq, bool_decide_eq_true_2 in Ht by done.
  destruct (candidate_Some _ _ Hc) as (h & t & Hsn & _).
  destruct (fed_fields c tl s) as (Hs & Hsc & Hph & _ & _ & _ & _ & Hb & _).
  apply placeFood_Done in Ht
    as (k & _ & Hf & Hnot & _ & _ & _ & -> & -> & _ & _ & -> & -> & _).
  pose proof Htl as Hlast. apply last_Some in Hlast as [front Hfront].
  exists front, tl. rewrite Hs.
  split; [by rewrite Hfront, <- app_assoc|]. split; [done|].
  split; [by rewrite <- Hfront, Hsn, cells_advance|].
  split.
  { rewrite Hsn, <- (prev_advance c (h :: t)), <- Hsn, Hfront, fmap_app. cbn.
    by rewrite last_snoc. }
  split; [done|]. split; [congruence|].
  split; [by rewrite Hs in Hnot|].
  split; [rewrite Hf; apply attempt_in_grid | done].
Qed.

(** A tick that eats returns as soon as an attempt of [placeFood] within
    the allowed iterations draws a cell that is free after the move. *)
Lemma tick_eats_returns fuel s c k :
  phase s = playing → candidate s = Some c →
  in_grid c → c ∉ body (snake s) → c = food_cell s →
  (k < fuel)%nat →
  attempt random (rcalls s + burst_draws 16) k ∉ c :: body (snake s) →
  ∃ s', tick random fuel s = Done s'.
Proof.
  intros Hp Hc Hin Hfree Hfood Hk Hatt.
  destruct (tick_survives random fuel s c Hp Hc Hin Hfree) as (tl & Htl & ->).
  rewrite bool_decide_eq_true_2 by done.
  destruct (candidate_Some _ _ Hc) as (h & t & Hsn & _).
  apply (placeFood_returns random fuel _ k Hk).
  destruct (fed_fields c tl s) as (_ & _ & _ & -> & _).
  rewrite fed_occupied; [done| by rewrite Hsn | done].
Qed.

Lemma tick_eats_no_throw fuel s c s' :
  phase s = playing → candidate s = Some c →
  in_grid c → c ∉ body (snake s) →
  tick random fuel s ≠ Threw s'.
Proof.
  intros Hp Hc Hin Hfree.
  destruct (tick_survives random fuel s c Hp Hc Hin Hfree) as (tl & Htl & ->).
  case_bool_decide; [apply placeFood_no_throw | done].
Qed.

(** C5.  A tick whose candidate head cell is the item's cell, with no wall
    and no self collision: once it returns, the score is one more, the
    creature has one more segment, the appended segment is a copy of the
    segment that was last after the cascade (same current and previous
    cell, the previous cell being the old tail's cell), and the new item cell
    is inside the grid and on no segment.  The tick returns as soon as one of
    the cells drawn within the allowed iterations is free, and it never
    throws. *)
Theorem tick_consumes_item fuel s c :
  phase s = playing → candidate s = Some c →
  in_grid c → c ∉ body (snake s) → c = food_cell s →
  (∀ s', tick random fuel s = Done s' →
     score s' = score s + 1
     ∧ length (snake s') = S (length (snake s))
     ∧ (∃ front tl, snake s' = front ++ [tl; tl]
          ∧ cells (front ++ [tl]) = c :: body (snake s)
          ∧ Some (px tl, py tl) = last (cells (snake s)))
     ∧ (food_cell s' ∉ cells (snake s'))
     ∧ in_grid (food_cell s'))
  ∧ (∀ k, (k < fuel)%nat →
       attempt random (rcalls s + burst_draws 16) k ∉ c :: body (snake s) →
       ∃ s', tick random fuel s = Done s')
  ∧ (∀ s', tick random fuel s ≠ Threw s').
Proof.
  intros Hp Hc Hin Hfree Hfood. split_and!.
  - intros s' Ht.
    destruct (tick_eats_Done fuel s c s' Hp Hc Hin Hfree Hfood Ht)
      as (front & tl & Hs & _ & Hcells & Hprev & Hsc & _ & Hnot & Hgrid & _).
    split; [done|]. split.
    { apply (f_equal length) in Hcells.
      unfold cells in Hcells. rewrite length_fmap, length_app in Hcells.
      cbn [length] in Hcells. rewrite length_body in Hcells.
      rewrite Hs, length_app. cbn [length].
      destruct (candidate_Some _ _ Hc) as (h & t & Hsn & _).
      rewrite Hsn in *. cbn [length] in *. lia. }
    split; [eauto|]. done.
  - intros k Hk Hatt. by apply (tick_eats_returns fuel s c k).
  - intros s'. by apply (tick_eats_no_throw fuel s c).
Qed.

(** The outcomes of a tick that returns. *)
Lemma tick_inv fuel s s' :
  tick random fuel s = Done s' →
  (phase s ≠ playing ∧ s' = s)
  ∨ (phase s = playing ∧ ∃ c, candidate s = Some c ∧
      ((¬ in_grid c ∨ c ∈ body (snake s)) ∧ s' = died s
       ∨ in_grid c ∧ (c ∉ body (snake s)) ∧ c ≠ food_cell s ∧ s' = stepped c s
       ∨ in_grid c ∧ (c ∉ body (snake s)) ∧ c = food_cell s ∧
         ∃ tl, last (advance c (snake s)) = Some tl
               ∧ placeFood random fuel (fed c tl s) = Done s')).
Proof.
  intros Ht. destruct (decide (phase s = playing)) as [Hp|Hp].
  2:{ left. rewrite tick_not_playing in Ht by done. by injection Ht as <-. }
  right. split; [done|].
  destruct (candidate s) as [c|] eqn:Hc.
  2:{ unfold candidate in Hc. destruct (snake s) eqn:Hsn; [|done].
      unfold tick in Ht. rewrite bool_decide_eq_true_2 in Ht by done.
      by rewrite Hsn in Ht. }
  exists c. split; [done|].
  destruct (decide (in_grid c)) as [Hin|Hout].
  2:{ left. rewrite (tick_dies random fuel s c) in Ht by auto.
      injection Ht as <-. auto. }
  destruct (decide (c ∈ body (snake s))) as [Hhit|Hfree].
  { left. rewrite (tick_dies random fuel s c) in Ht by auto.
    injection Ht as <-. auto. }
  right.
  destruct (tick_survives random fuel s c Hp Hc Hin Hfree) as (tl & Htl & Heq).
  rewrite Heq in Ht. case_bool_decide.
  - right. split_and!; try done. eauto.
  - left. injection Ht as <-. done.
Qed.

Lemma click_inv fuel s s' :
  click random fuel s = Done s' →
  (phase s = paused ∧ s' = set_phase playing s)
  ∨ (phase s ≠ paused ∧ startGame random fuel s = Done s').
Proof.
  unfold click. case_bool_decide; [intros [= <-]|]; auto.
Qed.

(** The outcomes of an event whose handler returns. *)
Lemma handle_inv fuel e s s' :
  handle random fuel e s = Done s' →
  s' = s
  ∨ (∃ p, s' = set_phase p s
        ∧ (phase s = playing ∧ p = paused ∨ phase s = paused ∧ p = playing))
  ∨ (phase s ≠ paused ∧ startGame random fuel s = Done s')
  ∨ (∃ nd, is_dir nd ∧ phase s = playing ∧ dirLocked s = false
        ∧ nd ≠ opposite (dir s) ∧ s' = set_dirLocked true (set_nextDir nd s))
  ∨ (phase s = playing ∧ ∃ c, candidate s = Some c ∧
      ((¬ in_grid c ∨ c ∈ body (snake s)) ∧ s' = died s
       ∨ in_grid c ∧ (c ∉ body (snake s)) ∧ c ≠ food_cell s ∧ s' = stepped c s
       ∨ in_grid c ∧ (c ∉ body (snake s)) ∧ c = food_cell s ∧
         ∃ tl, last (advance c (snake s)) = Some tl
               ∧ placeFood random fuel (fed c tl s) = Done s')).
Proof.
  destruct e as [key| |]; cbn [handle]; intros H.
  - apply keydown_inv in H
      as [(? & ? & ?)|[(? & ->)|[(? & ->)|[->|(nd & Hk & ? & ? & ? & ->)]]]].
    + do 2 right. left. done.
    + right. left. exists paused. auto.
    + right. left. exists playing. auto.
    + by left.
    + do 3 right. left. exists nd. split; [by eapply keyToDir_is_dir|done].
  - apply click_inv in H as [(? & ->)|(? & ?)].
    + right. left. exists playing. auto.
    + do 2 right. left. done.
  - apply tick_inv in H as [(? & ->)|H]; [by left|]. by do 4 right.
Qed.

(** *** The creature's cells in reachable states *)

Lemma NoDup_body sn : NoDup (cells sn) → NoDup (body sn).
Proof. unfold body. intros H. apply (sublist_NoDup _ _ H), sublist_take. Qed.

Lemma body_snoc sn sg : body (sn ++ [sg]) = cells sn.
Proof.
  unfold body, cells. rewrite length_app, fmap_app. cbn [length].
  replace (length sn + 1 - 1)%nat with (length (cell <$> sn))
    by (rewrite length_fmap; lia).
  by rewrite take_app_length.
Qed.

Lemma snake_invariant st s :
  reachable random st s →
  NoDup (body (snake s))
  ∧ (NoDup (cells (snake s)) ∨ tail_doubled (snake s)).
Proof.
  unfold tail_doubled.
  induction 1 as [|s fuel e s' Hr [IHb IHc] Hstep].
  - cbn. split; [|left]; constructor.
  - apply handle_inv in Hstep
      as [->|[(p & -> & _)|[(_ & Hst)|[(nd & _ & _ & _ & _ & ->)|
          (Hp & c & Hc & Htick)]]]]; try done.
    + apply startGame_Done in Hst as (_ & -> & _).
      assert (Hnd : NoDup (cells buildSnake))
        by (apply (bool_decide_unpack _); by vm_compute).
      split; [by apply NoDup_body | by left].
    + destruct (candidate_Some _ _ Hc) as (h & t & Hsn & _).
      destruct Htick as [(_ & ->)|[(_ & Hfree & _ & ->)|
                         (_ & Hfree & _ & tl & Htl & Hpf)]].
      * unfold died. simpl_gs. by rewrite body_save_prev, cells_save_prev.
      * unfold stepped. simpl_gs.
        assert (Hnd : NoDup (cells (advance c (snake s)))).
        { rewrite Hsn, cells_advance, <- Hsn. by constructor. }
        split; [by apply NoDup_body | by left].
      * apply placeFood_Done in Hpf
          as (_ & _ & _ & _ & _ & _ & _ & _ & -> & _).
        destruct (fed_fields c tl s) as (-> & _).
        rewrite body_snoc, Hsn, cells_advance, <- Hsn.
        split; [by constructor|]. right.
        apply last_Some in Htl as [front Hfront].
        exists (cells front), (cell tl).
        rewrite Hfront. unfold cells. rewrite !fmap_app, <- app_assoc. done.
Qed.

(** C1, amended.  In every reachable state the cells of all segments but the
    last are pairwise distinct, and either all cells are distinct or the last
    two segments are on the same cell; a tick that moves the creature without
    eating leaves all segments on distinct cells. *)
Theorem creature_cells_distinct st s :
  reachable random st s →
  NoDup (body (snake s))
  ∧ (NoDup (cells (snake s)) ∨ tail_doubled (snake s))
  ∧ (∀ fuel s', phase s = playing → tick random fuel s = Done s' →
       phase s' = playing → score s' = score s → NoDup (cells (snake s'))).
Proof.
  intros Hr. destruct (snake_invariant st s Hr) as [Hb Hc].
  split; [done|]. split; [done|].
  intros fuel s' Hp Ht Hp' Hsc.
  apply tick_inv in Ht as [(? & _)|(_ & c & Hcand & Ht)]; [done|].
  destruct (candidate_Some _ _ Hcand) as (h & t & Hsn & _).
  destruct Ht as [(_ & ->)|[(_ & Hfree & _ & ->)|
                  (_ & Hfree & _ & tl & Htl & Hpf)]].
  - done.
  - unfold stepped. simpl_gs.
    rewrite Hsn, cells_advance, <- Hsn. by constructor.
  - apply placeFood_Done in Hpf
      as (_ & _ & _ & _ & _ & _ & _ & _ & _ & _ & _ & Hs & _).
    destruct (fed_fields c tl s) as (_ & Hs2 & _). lia.
Qed.

(** *** Directions in reachable states *)

Lemma dir_invariant st s :
  reachable random st s →
  is_dir (dir s) ∧ is_dir (nextDir s) ∧ nextDir s ≠ opposite (dir s)
  ∧ (dirLocked s = true → phase s = playing ∨ phase s = paused).
Proof.
  induction 1 as [|s fuel e s' Hr (IHd & IHn & IHo & IHl) Hstep].
  - cbn. split_and!; try done; by left.
  - apply handle_inv in Hstep
      as [->|[(p & -> & Hp)|[(_ & Hst)|[(nd & Hnd & Hp & _ & Hno & ->)|
          (Hp & c & Hc & Htick)]]]]; try done.
    + simpl_gs. split_and!; try done. intros _. destruct Hp as [[_ ->]|[_ ->]]; auto.
    + apply startGame_Done in Hst as (_ & _ & -> & -> & _ & _ & -> & _).
      split_and!; try done; by left.
    + simpl_gs. split_and!; try done. auto.
    + assert (Hself : nextDir s ≠ opposite (nextDir s))
        by by apply is_dir_not_opposite.
      destruct Htick as [(_ & ->)|[(_ & _ & _ & ->)|
                         (_ & _ & _ & tl & _ & Hpf)]].
      * unfold died. simpl_gs. done.
      * unfold stepped. simpl_gs. done.
      * apply placeFood_Done in Hpf
          as (_ & _ & _ & _ & _ & _ & _ & _ & _ & -> & -> & _ & _ & -> & _).
        destruct (fed_fields c tl s) as (_ & _ & _ & _ & -> & -> & -> & _).
        done.
Qed.

(** C10.  In every reachable state the queued direction is not the reverse
    of the committed one.  While the lock is set no key press changes the
    queued direction; a key press that changes it during a round finds the
    lock clear and sets it; a tick clears the lock and commits the queued
    direction, which is not the reverse of the direction committed before,
    and a tick that moves the head moves it by that direction. *)
Theorem queued_direction_never_reverses st s :
  reachable random st s →
  nextDir s ≠ opposite (dir s)
  ∧ (dirLocked s = true → ∀ fuel key s',
       keydown random fuel key s = Done s' → nextDir s' = nextDir s)
  ∧ (∀ fuel key s', phase s = playing →
       keydown random fuel key s = Done s' → nextDir s' ≠ nextDir s →
       dirLocked s = false ∧ dirLocked s' = true)
  ∧ (∀ fuel s', phase s = playing → tick random fuel s = Done s' →
       dirLocked s' = false ∧ dir s' = nextDir s ∧ dir s' ≠ opposite (dir s))
  ∧ (∀ fuel s' h h', phase s = playing → tick random fuel s = Done s' →
       phase s' = playing →
       head (snake s) = Some h → head (snake s') = Some h' →
       Dir (x h' - x h) (y h' - y h) = nextDir s
       ∧ Dir (x h' - x h) (y h' - y h) ≠ opposite (dir s)).
Proof.
  intros Hr. destruct (dir_invariant st s Hr) as (Hd & Hn & Ho & Hl).
  split; [done|].
  assert (Htick : ∀ fuel s', phase s = playing → tick random fuel s = Done s' →
            dirLocked s' = false ∧ dir s' = nextDir s
            ∧ (phase s' = playing → ∀ h h', head (snake s) = Some h →
                 head (snake s') = Some h' →
                 Dir (x h' - x h) (y h' - y h) = nextDir s)).
  { intros fuel s' Hp Ht.
    apply tick_inv in Ht as [(? & _)|(_ & c & Hcand & Ht)]; [done|].
    destruct (candidate_Some _ _ Hcand) as (h & t & Hsn & Hceq).
    assert (Hmove : ∀ h0 h' l, head (snake s) = Some h0 →
              head (advance c (snake s) ++ l) = Some h' →
              Dir (x h' - x h0) (y h' - y h0) = nextDir s).
    { intros h0 h' l. rewrite Hsn, advance_cons, Hceq. cbn.
      intros [= <-] [= <-]. cbn. destruct (nextDir s). cbn. f_equal; lia. }
    destruct Ht as [(_ & ->)|[(_ & _ & _ & ->)|(_ & _ & _ & tl & _ & Hpf)]].
    - unfold died. simpl_gs. done.
    - unfold stepped. simpl_gs. split; [done|]. split; [done|].
      intros _ h0 h' Hh Hh'. apply (Hmove h0 h' []); [done|].
      by rewrite app_nil_r.
    - apply placeFood_Done in Hpf
        as (_ & _ & _ & _ & _ & _ & _ & _ & -> & -> & _ & _ & _ & -> & _).
      destruct (fed_fields c tl s) as (-> & _ & _ & _ & -> & _ & -> & _).
      split; [done|]. split; [done|].
      intros _ h0 h'. apply Hmove. }
  split_and!.
  - intros Hlk fuel key s' Hk.
    apply keydown_inv in Hk
      as [(? & ? & ?)|[(? & ->)|[(? & ->)|[->|(nd & _ & _ & ? & _)]]]];
      try done.
    + destruct (Hl Hlk); done.
    + congruence.
  - intros fuel key s' Hp Hk Hne.
    apply keydown_inv in Hk
      as [(? & ? & ?)|[(? & ->)|[(? & ->)|[->|(nd & _ & _ & ? & _ & ->)]]]];
      try done.
  - intros fuel s' Hp Ht. destruct (Htick fuel s' Hp Ht) as (? & Heq & _).
    split; [done|]. split; [done|]. by rewrite Heq.
  - intros fuel s' h h' Hp Ht Hp' Hh Hh'.
    destruct (Htick fuel s' Hp Ht) as (_ & _ & Hmove).
    rewrite (Hmove Hp' h h' Hh Hh'). done.
Qed.

(** C7, amended.  In phase [playing] a request for the exact reverse of the
    committed direction changes nothing: the handler returns the state it was
    given.  The direction active after the next tick is the one that was
    queued before the request, which is the committed one when no other
    change was queued. *)
Theorem reverse_request_rejected fuel key s :
  phase s = playing → keyToDir key = Some (opposite (dir s)) →
  keydown random fuel key s = Done s
  ∧ (∀ fuel' s', tick random fuel' s = Done s' → dir s' = nextDir s)
  ∧ (nextDir s = dir s →
     ∀ fuel' s', tick random fuel' s = Done s' → dir s' = dir s).
Proof.
  intros Hp Hk.
  assert (Htick : ∀ fuel' s', tick random fuel' s = Done s' → dir s' = nextDir s).
  { intros fuel' s' Ht.
    apply tick_inv in Ht as [(? & _)|(_ & c & Hcand & Ht)]; [done|].
    destruct Ht as [(_ & ->)|[(_ & _ & _ & ->)|(_ & _ & _ & tl & _ & Hpf)]];
      [done..|].
    apply placeFood_Done in Hpf
      as (_ & _ & _ & _ & _ & _ & _ & _ & _ & -> & _).
    by destruct (fed_fields c tl s) as (_ & _ & _ & _ & -> & _). }
  split_and!; [|done|intros <-; done].
  unfold keydown.
  destruct (keyToDir_not_control _ _ Hk) as (-> & -> & -> & -> & ->).
  rewrite Hk. pose proof (keyToDir_is_dir _ _ Hk) as Hnd.
  rewrite (bool_decide_eq_true_2 (phase s = playing)) by done.
  cbn [negb andb orb]. destruct (dirLocked s); [done|].
  unfold opposite in *. cbn [dir_x dir_y] in *.
  repeat case_bool_decide; cbn [negb andb]; try done.
  destruct Hnd as [Hnd|[Hnd|[Hnd|Hnd]]]; injection Hnd as ? ?; lia.
Qed.

(** The best score along a session whose loaded value is not negative. *)
Lemma session_invariant st s hi :
  session random st s hi → 0 ≤ loadBest st →
  best s = Z.max (loadBest st) hi ∧ 0 ≤ score s ≤ hi
  ∧ (stored s ≠ Unavailable → loadBest (stored s) = best s).
Proof.
  intros Hs HL.
  induction Hs as [|s hi fuel e s' Hs (IHb & IHs & IHst) Hstep].
  - cbn. split_and!; try done; lia.
  - apply handle_inv in Hstep
      as [->|[(p & -> & Hp)|[(_ & Hst)|[(nd & Hnd & Hp & _ & Hno & ->)|
          (Hp & c & Hc & Htick)]]]]; simpl_gs.
    + split_and!; try done; lia.
    + split_and!; try done; lia.
    + apply startGame_Done in Hst as (_ & _ & _ & _ & -> & -> & _ & -> & _).
      split_and!; try done; lia.
    + split_and!; try done; lia.
    + destruct Htick as [(_ & ->)|[(_ & _ & _ & ->)|
                         (_ & _ & _ & tl & _ & Hpf)]].
      * unfold died. simpl_gs. split_and!; try done; lia.
      * unfold stepped. simpl_gs. split_and!; try done; lia.
      * apply placeFood_Done in Hpf
          as (_ & _ & _ & _ & _ & _ & _ & _ & _ & _ & _ & Hsc & Hbe & _ & Hsto).
        destruct (fed_fields c tl s) as (_ & Hsc2 & _ & _ & _ & _ & _ & Hbe2 & Hsto2).
        rewrite Hsc, Hbe, Hsto, Hsc2, Hbe2, Hsto2.
        split_and!; try lia.
        case_bool_decide; [|intros ?; rewrite IHst by done; lia].
        intros Hne. clear IHst.
        destruct (stored s); cbn [saveBest loadBest] in *;
          try done; case_decide; lia.
Qed.

(** C6, amended.  Along a session whose loaded best score is not negative, the best
    score is the maximum of the loaded value and the highest round score so
    far; no event lowers it; an event that raises the round score above it
    sets it to the round score and saves that value; and whenever the store
    is readable it holds the best score. *)
Theorem best_score_running_maximum st s hi :
  session random st s hi → 0 ≤ loadBest st →
  best s = Z.max (loadBest st) hi
  ∧ (∀ fuel e s', handle random fuel e s = Done s' →
       best s ≤ best s'
       ∧ (score s' > best s →
          best s' = score s' ∧ stored s' = saveBest (score s') (stored s)))
  ∧ (stored s ≠ Unavailable → loadBest (stored s) = best s).
Proof.
  intros Hs HL. destruct (session_invariant st s hi Hs HL) as (Hb & Hsc & Hst).
  split; [done|]. split; [|done].
  intros fuel e s' Hstep.
  apply handle_inv in Hstep
    as [->|[(p & -> & Hp)|[(_ & Hstart)|[(nd & Hnd & Hp & _ & Hno & ->)|
        (Hp & c & Hc & Htick)]]]]; simpl_gs; try (split; [lia|intros; lia]).
  - apply startGame_Done in Hstart as (_ & _ & _ & _ & -> & -> & _).
    split; [lia|intros; lia].
  - destruct Htick as [(_ & ->)|[(_ & _ & _ & ->)|(_ & _ & _ & tl & _ & Hpf)]].
    + unfold died. simpl_gs. split; [lia|intros; lia].
    + unfold stepped. simpl_gs. split; [lia|intros; lia].
    + apply placeFood_Done in Hpf
        as (_ & _ & _ & _ & _ & _ & _ & _ & _ & _ & _ & Hsc' & Hbe & _ & Hsto).
      destruct (fed_fields c tl s) as (_ & Hsc2 & _ & _ & _ & _ & _ & Hbe2 & Hsto2).
      rewrite Hsc', Hbe, Hsto, Hsc2, Hbe2, Hsto2.
      split; [lia|]. intros Hgt. rewrite bool_decide_eq_true_2 by done.
      split; [lia|done].
Qed.


(** *** Well-formed rounds *)

Lemma body_subseteq sn : body sn ⊆ cells sn.
Proof. unfold body. apply sublist_subseteq, sublist_take. Qed.

(** In every reachable state a round that has started has a creature, all
    segments are on cells of the grid, and the item is under no segment. *)
Lemma round_invariant st s :
  reachable random st s →
  (phase s ≠ idle → snake s ≠ [])
  ∧ Forall in_grid (cells (snake s))
  ∧ food_cell s ∉ cells (snake s).
Proof.
  induction 1 as [|s fuel e s' Hr (IHn & IHg & IHf) Hstep].
  - cbn. split_and!; [done|constructor|apply not_elem_of_nil].
  - apply handle_inv in Hstep
      as [->|[(p & -> & Hp)|[(_ & Hst)|[(nd & _ & Hp & _ & _ & ->)|
          (Hp & c & Hc & Htick)]]]]; try done.
    + simpl_gs. split_and!; try done. intros _. apply IHn.
      destruct Hp as [[-> _]|[-> _]]; done.
    + apply startGame_Done in Hst as (_ & Hsn & _ & _ & _ & _ & _ & _ & Hf & _).
      rewrite Hsn. split_and!; [done| |done].
      change (cells buildSnake) with [(10, 10); (9, 10); (8, 10)].
      unfold in_grid, GRID. repeat (constructor; [cbn; lia|]). constructor.
    + destruct (candidate_Some _ _ Hc) as (h & t & Hsn & _).
      destruct Htick as [(_ & ->)|[(Hin & Hfree & Hnf & ->)|
                         (Hin & Hfree & _ & tl & Htl & Hpf)]].
      * unfold died, food_cell in *. simpl_gs. rewrite cells_save_prev, Hsn.
        split_and!; [done| by rewrite <- Hsn | by rewrite <- Hsn].
      * unfold stepped, food_cell in *. simpl_gs.
        rewrite Hsn, cells_advance, <- Hsn. split_and!.
        -- intros _ Hnil. apply (f_equal length) in Hnil.
           rewrite length_advance, Hsn in Hnil. done.
        -- constructor; [done|].
           apply Forall_forall. intros d Hd.
           rewrite Forall_forall in IHg. by apply IHg, body_subseteq.
        -- intros Hd. apply elem_of_cons in Hd as [Hd|Hd]; [done|].
           by apply IHf, body_subseteq.
      * pose proof Hpf as Hpf'.
        apply placeFood_Done in Hpf
          as (k & _ & _ & Hnot & _ & _ & _ & _ & Hsn' & _).
        rewrite Hsn'. split_and!; [|  |done].
        -- intros _. destruct (fed_fields c tl s) as (-> & _).
           by destruct (advance c (snake s)).
        -- apply Forall_forall. intros d Hd.
           apply (fed_occupied c tl s d) in Hd; [|by rewrite Hsn | done].
           apply elem_of_cons in Hd as [Heq|Hd]; [by rewrite Heq|].
           rewrite Forall_forall in IHg. by apply IHg, body_subseteq.
Qed.

(** No handler throws in a reachable state: the creature is never empty
    when a tick reads its head. *)
Lemma handlers_never_throw st s fuel e s' :
  reachable random st s → handle random fuel e s ≠ Threw s'.
Proof.
  intros Hr. destruct (round_invariant st s Hr) as (Hne & _ & _).
  destruct e as [key| |]; cbn [handle].
  - unfold keydown, startGame.
    repeat (match goal with
            | |- context [if ?b then _ else _] => destruct b
            | |- context [match keyToDir ?k with _ => _ end] =>
                destruct (keyToDir k)
            end); try done; apply placeFood_no_throw.
  - unfold click, startGame. case_bool_decide; [done|apply placeFood_no_throw].
  - destruct (decide (phase s = playing)) as [Hp|Hp];
      [|by rewrite tick_not_playing].
    destruct (candidate s) as [c|] eqn:Hc.
    2:{ unfold candidate in Hc. destruct (snake s) eqn:Hsn; [|done].
        destruct Hne; [by rewrite Hp|done]. }
    destruct (decide (in_grid c)) as [Hin|Hout];
      [|by rewrite (tick_dies random fuel s c) by auto].
    destruct (decide (c ∈ body (snake s))) as [Hhit|Hfree];
      [by rewrite (tick_dies random fuel s c) by auto|].
    by apply (tick_eats_no_throw fuel s c).
Qed.

(** In a reachable state, a head that follows the tail into its cell goes
    through: the item is never on a segment's cell, so this tick does not
    eat and returns whatever the random source. *)
Lemma tail_chase_returns st s fuel c :
  reachable random st s → phase s = playing → candidate s = Some c →
  c ∉ body (snake s) → last (cells (snake s)) = Some c →
  ∃ s', tick random fuel s = Done s' ∧ phase s' = playing
        ∧ score s' = score s
        ∧ cells (snake s') = c :: body (snake s).
Proof.
  intros Hr Hp Hc Hfree Hlast.
  destruct (round_invariant st s Hr) as (_ & Hg & Hf).
  assert (Hin : c ∈ cells (snake s)).
  { apply last_Some in Hlast as [l ->]. apply elem_of_app. right. by left. }
  rewrite Forall_forall in Hg.
  destruct (tick_survives random fuel s c Hp Hc (Hg c Hin) Hfree)
    as (tl & _ & ->).
  rewrite bool_decide_eq_false_2 by (intros ->; done).
  exists (stepped c s). split; [done|]. unfold stepped. simpl_gs.
  split; [done|]. split; [done|].
  destruct (candidate_Some _ _ Hc) as (h & t & Hsn & _).
  by rewrite Hsn, cells_advance.
Qed.

(** C4.  A tick in phase [playing] whose candidate head cell is the cell of
    a segment other than the last ends with the phase [dead] and the score
    unchanged.  In a reachable state, a candidate cell that is the cell of
    the last segment only does not kill: the tick returns in phase [playing]
    with the head on the candidate cell, the other segments moved up, and
    the score unchanged. *)
Theorem tick_self_collision fuel s c :
  phase s = playing → candidate s = Some c →
  (c ∈ body (snake s) →
     ∃ s', tick random fuel s = Done s' ∧ phase s' = dead ∧ score s' = score s)
  ∧ (∀ st, reachable random st s →
       c ∉ body (snake s) → last (cells (snake s)) = Some c →
       ∃ s', tick random fuel s = Done s' ∧ phase s' = playing
             ∧ score s' = score s
             ∧ cells (snake s') = c :: body (snake s)).
Proof.
  intros Hp Hc. split.
  - intros Hhit. exists (died s).
    split; [apply (tick_dies random fuel s c); auto|]. done.
  - intros st Hr Hfree Hlast. by apply (tail_chase_returns st).
Qed.
End EngineClaims.


(** ** Item placement is uniform over the free cells *)

Lemma rndInt_sample_of n v : 0 ≤ v < n → rndInt n (sample_of n v) = v.
Proof. apply rndInt_onto. Qed.

Lemma attempt_source_of c ds k d :
  ds !! k = Some d → in_grid d → attempt (source_of c ds) c k = d.
Proof.
  intros Hk [Hx Hy]. unfold attempt, source_of.
  replace ((c + 2 * k - c) `div` 2)%nat with k.
  2:{ replace (c + 2 * k - c)%nat with (k * 2)%nat by lia.
      by rewrite Nat.div_mul. }
  replace ((c + 2 * k + 1 - c) `div` 2)%nat with k.
  2:{ replace (c + 2 * k + 1 - c)%nat with (1 + k * 2)%nat by lia.
      by rewrite Nat.div_add. }
  rewrite Hk.
  replace (Nat.even (c + 2 * k - c)) with true.
  2:{ replace (c + 2 * k - c)%nat with (2 * k)%nat by lia.
      symmetry. apply Nat.even_spec. by exists k. }
  replace (Nat.even (c + 2 * k + 1 - c)) with false.
  2:{ replace (c + 2 * k + 1 - c)%nat with (S (2 * k))%nat by lia.
      rewrite Nat.even_succ. symmetry. apply not_true_is_false.
      intros Ho. apply Nat.odd_spec in Ho as [m Hm]. lia. }
  rewrite !rndInt_sample_of by done. by destruct d.
Qed.

Lemma pick_Some occ ds d :
  pick occ ds = Some d →
  ∃ k, ds !! k = Some d ∧ (d ∉ occ) ∧ ∀ j e, (j < k)%nat → ds !! j = Some e → e ∈ occ.
Proof.
  induction ds as [|e ds IH]; [done|]. cbn [pick]. case_bool_decide as He.
  - intros H. destruct (IH H) as (k & Hk & Hd & Hb). exists (S k).
    split; [done|]. split; [done|].
    intros [|j] e' Hj; cbn; [by intros [= <-]|]. apply Hb. lia.
  - intros [= <-]. exists 0%nat. split; [done|]. split; [done|]. intros; lia.
Qed.

Lemma pick_None occ ds : pick occ ds = None → ∀ d, d ∈ ds → d ∈ occ.
Proof.
  induction ds as [|e ds IH]; intros H d Hd; [by apply elem_of_nil in Hd|].
  cbn [pick] in H. case_bool_decide; [|done].
  apply elem_of_cons in Hd as [->|Hd]; [done|]. by apply IH.
Qed.

(** On the source built from the draws [ds], the loop returns the first
    free cell of [ds]. *)
Lemma placeFood_loop_source_of occ c ds :
  Forall in_grid ds →
  fst <$> placeFood_loop (source_of c ds) (length ds) occ c = pick occ ds.
Proof.
  intros Hg. rewrite Forall_forall in Hg.
  destruct (pick occ ds) as [d|] eqn:Hp.
  - apply pick_Some in Hp as (k & Hk & Hd & Hb).
    assert (Hin : in_grid d) by (apply Hg; by eapply list_elem_of_lookup_2).
    rewrite (placeFood_loop_first _ occ k).
    + cbn. by rewrite (attempt_source_of c ds k d).
    + by eapply lookup_lt_Some.
    + intros j Hj.
      destruct (lookup_lt_is_Some_2 ds j) as [e He];
        [apply lookup_lt_Some in Hk; lia|].
      rewrite (attempt_source_of c ds j e); [by eapply Hb|done|].
      apply Hg. by eapply list_elem_of_lookup_2.
    + by rewrite (attempt_source_of c ds k d).
  - destruct (placeFood_loop _ _ _ _) as [[cl c']|] eqn:Hl; [|done].
    apply placeFood_loop_Some in Hl as (k & Hk & -> & _ & Hfree & _).
    destruct (lookup_lt_is_Some_2 ds k Hk) as [e He].
    assert (Hin : e ∈ ds) by by eapply list_elem_of_lookup_2.
    rewrite (attempt_source_of c ds k e) in Hfree by auto.
    destruct Hfree. by eapply pick_None.
Qed.

(** *** Counting the draws that lead to a cell *)

Lemma filter_iff_in {A} (P1 P2 : A → Prop) `{∀ a, Decision (P1 a)}
    `{∀ a, Decision (P2 a)} (l : list A) :
  (∀ a, a ∈ l → P1 a ↔ P2 a) → filter P1 l = filter P2 l.
Proof.
  induction l as [|a l IH]; intros Hl; [done|].
  rewrite !filter_cons, IH by (intros; apply Hl; by right).
  destruct (decide (P1 a)) as [H1|H1], (decide (P2 a)) as [H2|H2];
    try done; destruct (Hl a); (by left) || tauto.
Qed.

Lemma length_filter_bind {A B} (P : B → Prop) `{∀ b, Decision (P b)}
    (f : A → list B) (l : list A) :
  length (filter P (l ≫= f)) = sum_list ((λ d, length (filter P (f d))) <$> l).
Proof.
  induction l as [|d l IH]; [done|].
  cbn. by rewrite filter_app, length_app, IH.
Qed.

Lemma length_filter_cons_draws occ a d (L : list (list (Z * Z))) :
  length (filter (λ ds, pick occ ds = Some a) ((d ::.) <$> L))
  = if decide (d ∈ occ)
    then length (filter (λ ds, pick occ ds = Some a) L)
    else if decide (d = a) then length L else 0%nat.
Proof.
  induction L as [|ds L IH]; [by repeat case_decide|].
  rewrite fmap_cons, !filter_cons. cbn [pick].
  destruct (decide (d ∈ occ)) as [Ho|Ho].
  - rewrite bool_decide_eq_true_2 by done.
    destruct (decide (pick occ ds = Some a)); cbn [length]; by rewrite IH.
  - rewrite bool_decide_eq_false_2 by done.
    destruct (decide (d = a)) as [->|Hne].
    + rewrite decide_True by done. cbn [length]. by rewrite IH.
    + rewrite decide_False by congruence. by rewrite IH.
Qed.

Lemma hits_S occ a n :
  hits occ a (S n)
  = sum_list ((λ d, if decide (d ∈ occ) then hits occ a n
                    else if decide (d = a) then length (all_draws n)
                    else 0%nat) <$> grid_cells).
Proof.
  unfold hits. cbn [all_draws]. rewrite length_filter_bind.
  f_equal. apply list_fmap_ext. intros _ d _.
  apply length_filter_cons_draws.
Qed.

(** A sum over a list without repetitions of a weight that is [K] on the
    occupied cells, [M] on the free cell [a], and 0 elsewhere. *)
Lemma sum_weights (occ : gset (Z * Z)) a K M (l : list (Z * Z)) :
  NoDup l → a ∉ occ →
  sum_list ((λ d, if decide (d ∈ occ) then K
                  else if decide (d = a) then M else 0%nat) <$> l)
  = (K * length (filter (.∈ occ) l) + (if decide (a ∈ l) then M else 0))%nat.
Proof.
  intros Hnd Ha. induction Hnd as [|d l Hd Hnd IH].
  { rewrite decide_False by apply not_elem_of_nil. cbn. lia. }
  rewrite fmap_cons, filter_cons. cbn [sum_list]. rewrite IH.
  destruct (decide (d ∈ occ)) as [Ho|Ho].
  - assert (a ≠ d) by congruence.
    cbn [length]. destruct (decide (a ∈ l)) as [Hl|Hl].
    + rewrite decide_True by (by right). unfold id; rewrite ?Nat.mul_succ_r; lia.
    + rewrite decide_False; [unfold id; rewrite ?Nat.mul_succ_r; lia|].
      intros Hin. apply elem_of_cons in Hin as [?|?]; done.
  - destruct (decide (d = a)) as [->|Hne].
    + rewrite (decide_False (P := a ∈ l)) by done.
      rewrite decide_True by (by left). unfold id; rewrite ?Nat.mul_succ_r; lia.
    + destruct (decide (a ∈ l)) as [Hl|Hl].
      * rewrite decide_True by (by right). unfold id; rewrite ?Nat.mul_succ_r; lia.
      * rewrite decide_False; [unfold id; rewrite ?Nat.mul_succ_r; lia|].
        intros Hin. apply elem_of_cons in Hin as [?|?]; congruence.
Qed.

Lemma NoDup_grid_cells : NoDup grid_cells.
Proof. apply (bool_decide_unpack _). by vm_compute. Qed.

Lemma elem_of_grid_cells c : c ∈ grid_cells ↔ in_grid c.
Proof.
  destruct c as [cx cy]. unfold grid_cells, in_grid. cbn [fst snd].
  rewrite list_elem_of_bind. split.
  - intros (x & Hy & Hx). apply list_elem_of_bind in Hy as (y & Hc & Hy).
    apply list_elem_of_singleton in Hc as [= -> ->].
    apply elem_of_seqZ in Hx, Hy. lia.
  - intros [Hx Hy]. exists cx. split; [|apply elem_of_seqZ; lia].
    apply list_elem_of_bind. exists cy. split; [|apply elem_of_seqZ; lia].
    by apply list_elem_of_singleton.
Qed.

(** Any two free cells are the first free cell of equally many sequences
    of [n] draws. *)
Lemma hits_uniform occ a b n :
  in_grid a → in_grid b → a ∉ occ → b ∉ occ → hits occ a n = hits occ b n.
Proof.
  intros Ha Hb Hfa Hfb. induction n as [|n IH]; [done|].
  rewrite !hits_S, IH.
  rewrite !sum_weights by (done || apply NoDup_grid_cells).
  by rewrite !decide_True by by apply elem_of_grid_cells.
Qed.

Lemma all_draws_in_grid n ds : ds ∈ all_draws n → Forall in_grid ds ∧ length ds = n.
Proof.
  revert ds. induction n as [|n IH]; intros ds Hds; cbn [all_draws] in Hds.
  - apply list_elem_of_singleton in Hds as ->. by split.
  - apply list_elem_of_bind in Hds as (d & Hds & Hd).
    apply list_elem_of_fmap in Hds as (r & -> & Hr).
    destruct (IH r Hr) as [Hg <-].
    split; [|done]. constructor; [by apply elem_of_grid_cells|done].
Qed.

(** Whatever the creature and the random cursor: among the equally many
    ways [n] iterations can draw cells of the grid, as many make
    [placeFood] put the item on one free cell as on any other. *)
Lemma placeFood_uniform s n a b :
  in_grid a → in_grid b →
  a ∉ cells (snake s) → b ∉ cells (snake s) →
  length (filter (λ ds, placed (placeFood (source_of (rcalls s) ds) n s) = Some a)
            (all_draws n))
  = length (filter (λ ds, placed (placeFood (source_of (rcalls s) ds) n s) = Some b)
              (all_draws n)).
Proof.
  intros Ha Hb Hfa Hfb.
  set (occ := list_to_set (cells (snake s)) : gset (Z * Z)).
  assert (Hpl : ∀ c ds, ds ∈ all_draws n →
            placed (placeFood (source_of (rcalls s) ds) n s) = Some c
            ↔ pick occ ds = Some c).
  { intros c ds Hds. destruct (all_draws_in_grid n ds Hds) as [Hg Hlen].
    rewrite <- (placeFood_loop_source_of occ (rcalls s) ds Hg), Hlen.
    unfold placeFood. fold occ.
    by destruct (placeFood_loop _ _ _ _) as [[[x0 y0] c']|]. }
  transitivity (hits occ a n); [|transitivity (hits occ b n)].
  - unfold hits. f_equal. apply filter_iff_in.
    intros ds Hds. by apply Hpl.
  - apply hits_uniform; try done; unfold occ; by rewrite elem_of_list_to_set.
  - unfold hits. f_equal. apply filter_iff_in.
    intros ds Hds. symmetry. by apply Hpl.
Qed.

(** C2, amended.  [placeFood] is rejection sampling without a bound: when it
    returns, the item is on the first drawn cell that no segment occupies, a
    cell of the grid, with a variant in [0, 5), and the creature is untouched;
    it returns as soon as a cell drawn within the allowed iterations is free;
    on a grid that is fully occupied it never returns, whatever the number of
    iterations; every free cell and variant is the result for some random
    source; and among the sequences of cells that [n] iterations can draw,
    as many lead to one free cell as to any other, so the choice is uniform
    over the free cells when the draws are. *)
Theorem placeFood_rejection_sampling random fuel s :
  (∀ s', placeFood random fuel s = Done s' →
     (food_cell s' ∉ cells (snake s)) ∧ in_grid (food_cell s')
     ∧ 0 ≤ mush (food s') < MUSHROOMS_length
     ∧ snake s' = snake s
     ∧ ∃ k, (k < fuel)%nat ∧ food_cell s' = attempt random (rcalls s) k
            ∧ ∀ j, (j < k)%nat → attempt random (rcalls s) j ∈ cells (snake s))
  ∧ (∀ k, (k < fuel)%nat → attempt random (rcalls s) k ∉ cells (snake s) →
       ∃ s', placeFood random fuel s = Done s')
  ∧ ((∀ c, in_grid c → c ∈ cells (snake s)) → placeFood random fuel s = Hung)
  ∧ (∀ c m, in_grid c → c ∉ cells (snake s) → 0 ≤ m < MUSHROOMS_length →
       ∃ random' s', placeFood random' 1 s = Done s'
                     ∧ food_cell s' = c ∧ mush (food s') = m)
  ∧ (∀ n a b, in_grid a → in_grid b →
       a ∉ cells (snake s) → b ∉ cells (snake s) →
       length (filter (λ ds, placed (placeFood (source_of (rcalls s) ds) n s)
                             = Some a) (all_draws n))
       = length (filter (λ ds, placed (placeFood (source_of (rcalls s) ds) n s)
                               = Some b) (all_draws n))).
Proof.
  split_and!; [| | | |apply placeFood_uniform].
  - intros s' H.
    apply placeFood_Done in H
      as (k & Hk & Hf & Hfree & Hbefore & Hm & _ & _ & Hsn & _).
    split; [done|]. split; [rewrite Hf; apply attempt_in_grid|].
    split; [rewrite Hm; by apply rndInt_range|]. split; [done|]. eauto.
  - intros k Hk Hfree. by apply (placeFood_returns random fuel s k).
  - apply placeFood_full.
  - intros [cx cy] m [Hx Hy] Hfree Hm. cbn [fst snd] in *.
    set (ux := U01 (Z.to_nat cx) (Z.to_nat (GRID - 1 - cx))).
    set (uy := U01 (Z.to_nat cy) (Z.to_nat (GRID - 1 - cy))).
    set (um := U01 (Z.to_nat m) (Z.to_nat (MUSHROOMS_length - 1 - m))).
    set (random' := λ i : nat,
           if decide (i = rcalls s) then ux
           else if decide (i = S (rcalls s)) then uy else um).
    assert (Ha : attempt random' (rcalls s) 0 = (cx, cy)).
    { rewrite attempt_0. unfold random'.
      rewrite decide_True by done. rewrite decide_False by lia.
      rewrite decide_True by done.
      unfold ux, uy. by rewrite !rndInt_onto. }
    destruct (placeFood_returns random' 1 s 0) as [s' Hs']; [lia|by rewrite Ha|].
    exists random', s'. split; [done|].
    apply placeFood_Done in Hs'
      as (k & Hk & Hf & _ & _ & Hmu & _).
    assert (k = 0%nat) as -> by lia.
    split; [by rewrite Hf|].
    rewrite Hmu. unfold random'.
    rewrite decide_False by lia. rewrite decide_False by lia.
    unfold um. by rewrite rndInt_onto.
Qed.

(** ** The particle pool *)

Lemma update_loop_spec n : ∀ ps,
  (n ≤ length ps)%nat →
  update_loop n ps = filter alive (drift <$> take n ps) ++ drop n ps.
Proof.
  induction n as [|i IH]; intros ps Hn; [done|].
  destruct (lookup_lt_is_Some_2 ps i ltac:(lia)) as [p Hp].
  cbn [update_loop]. rewrite Hp.
  rewrite (take_S_r _ _ _ Hp), fmap_app, filter_app. cbn [fmap list_fmap].
  assert (Hlen : length (take i ps) = i) by (rewrite length_take; lia).
  destruct (expired (drift p)) eqn:He.
  - rewrite delete_take_drop, IH.
    2:{ rewrite length_app, length_take, length_drop. lia. }
    rewrite take_app_length' by done. rewrite drop_app_length' by done.
    rewrite filter_cons_False by (unfold alive; congruence).
    by rewrite filter_nil, app_nil_r.
  - rewrite insert_take_drop by lia. rewrite IH.
    2:{ rewrite length_app, length_take. cbn. rewrite length_drop. lia. }
    rewrite take_app_length' by done. rewrite drop_app_length' by done.
    rewrite filter_cons_True by done.
    by rewrite filter_nil, <- app_assoc.
Qed.

Lemma expired_spec p :
  expired p = true ↔ (p_life p <= 0 ∨ p_y p < -10)%Q.
Proof.
  unfold expired, Qltb. rewrite orb_true_iff, negb_true_iff.
  rewrite Qle_bool_iff. split; (intros [H|H]; [by left|right]).
  - apply Qnot_le_lt. intros Hle. apply Qle_bool_iff in Hle. congruence.
  - destruct (Qle_bool (-10) (p_y p)) eqn:E; [|done].
    apply Qle_bool_iff in E. by apply Qle_not_lt in E.
Qed.

Section EffectsFacts.
Variable random : nat → unit01.
Variables Math_cos Math_sin : Q → Q.
Variable Math_PI : Q.

(** A burst of [n] particles makes the [burst_draws n] calls of
    [Math.random] that the engine accounts for. *)
Lemma spawnBurst_draws cx cy n : ∀ e,
  fx_rcalls (spawnBurst random Math_cos Math_sin Math_PI cx cy n e)
  = (fx_rcalls e + burst_draws n)%nat
  ∧ length (particles (spawnBurst random Math_cos Math_sin Math_PI cx cy n e))
    = (length (particles e) + n)%nat.
Proof.
  unfold burst_draws. induction n as [|n IH]; intros e; cbn [spawnBurst].
  - split; lia.
  - destruct (IH (FX (frame e)
                   (particles e ++
                      [spawnParticle random Math_cos Math_sin Math_PI
                         (fx_rcalls e) cx cy true])
                   (fx_rcalls e + 5))) as [-> ->].
    cbn [fx_rcalls particles]. rewrite length_app. cbn [length]. split; lia.
Qed.
(** C8, amended.  The per-frame update keeps exactly the particles that,
    once moved and aged, have not expired: a particle of the pool (the one
    spawned in this frame included) is removed exactly when its life is at
    most 0 or its [y] is above the top edge by more than 10.  No other edge
    is tested. *)
Theorem updateParticles_removal e :
  let pool := particles (ambient random Math_cos Math_sin Math_PI e) in
  particles (updateParticles random Math_cos Math_sin Math_PI e)
  = filter alive (drift <$> pool)
  ∧ ∀ p, p ∈ pool →
      (drift p ∈ particles (updateParticles random Math_cos Math_sin Math_PI e)
       ↔ ¬ (p_life (drift p) <= 0 ∨ p_y (drift p) < -10)%Q).
Proof.
  intros pool.
  assert (Heq : particles (updateParticles random Math_cos Math_sin Math_PI e)
                = filter alive (drift <$> pool)).
  { unfold updateParticles. cbn [particles]. fold pool.
    rewrite update_loop_spec by done.
    by rewrite firstn_all, drop_all, app_nil_r. }
  split; [done|]. intros p Hp. rewrite Heq, list_elem_of_filter.
  unfold alive. rewrite <- expired_spec, not_true_iff_false.
  split; [tauto|]. intros He. split; [done|].
  apply list_elem_of_fmap. eauto.
Qed.
End EffectsFacts.

(** ** The properties on concrete runs *)

(** The concrete states are the ones their runs reach. *)
Lemma round_start_run :
  run rnd_ahead 1 [KeyDown "Enter"] (init Absent) = Done round_start.
Proof. reflexivity. Qed.

Lemma after_eat_run :
  run rnd_ahead 1 [KeyDown "Enter"; Tick] (init Absent) = Done after_eat.
Proof. reflexivity. Qed.

Lemma turning_run :
  run rnd_ahead 1 [KeyDown "Enter"; KeyDown "w"] (init Absent) = Done turning.
Proof. reflexivity. Qed.

(** What a run from a reachable state ends in is reachable. *)
Lemma run_reachable random fuel st es : ∀ s s',
  reachable random st s → run random fuel es s = Done s' →
  reachable random st s'.
Proof.
  induction es as [|e es IH]; intros s s' Hr Hrun; cbn in Hrun.
  - by injection Hrun as <-.
  - destruct (handle random fuel e s) as [s1| |] eqn:He; try done.
    eapply IH; [|done]. by eapply reach_step.
Qed.

(** At the right edge, moving right: the tick kills and moves nothing. *)
Lemma tick_wall_collision_witness :
  ∃ s', tick rnd_ahead 0 at_wall = Done s' ∧ phase s' = dead
    ∧ snake s' = save_prev <$> snake at_wall
    ∧ cells (snake s') = cells (snake at_wall)
    ∧ length (snake s') = length (snake at_wall).
Proof.
  apply (tick_wall_collision rnd_ahead 0 at_wall (20, 10)).
  - reflexivity.
  - reflexivity.
  - unfold in_grid, GRID. cbn. lia.
Defined.

Lemma chasing_reachable : reachable rnd_ahead Absent chasing.
Proof.
  apply (run_reachable rnd_ahead 1 Absent
           [KeyDown "Enter"; Tick; Tick; KeyDown "w"; Tick; KeyDown "a"; Tick;
            KeyDown "s"] (init Absent)); [constructor | reflexivity].
Qed.

(** The head of [coiled] runs into the fourth of five segments and dies;
    the head of [chasing] follows the last segment into its cell and lives. *)
Lemma tick_self_collision_witness :
  (∃ s', tick rnd_ahead 0 coiled = Done s' ∧ phase s' = dead
         ∧ score s' = score coiled)
  ∧ (∃ s', tick rnd_ahead 0 chasing = Done s' ∧ phase s' = playing
           ∧ score s' = score chasing
           ∧ cells (snake s') = (11, 10) :: body (snake chasing)).
Proof.
  split.
  - apply (tick_self_collision rnd_ahead 0 coiled (6, 5)).
    + reflexivity.
    + reflexivity.
    + apply (bool_decide_unpack _). vm_compute. reflexivity.
  - apply (proj2 (tick_self_collision rnd_ahead 0 chasing (11, 10)
                    eq_refl eq_refl) Absent).
    + apply chasing_reachable.
    + apply (bool_decide_unpack _). vm_compute. reflexivity.
    + reflexivity.
Defined.

(** The first tick of [round_start] eats the item right ahead. *)
Lemma tick_consumes_item_witness :
  tick rnd_ahead 1 round_start = Done after_eat
  ∧ (∀ s', tick rnd_ahead 1 round_start = Done s' →
       score s' = score round_start + 1
       ∧ length (snake s') = S (length (snake round_start))
       ∧ (∃ front tl, snake s' = front ++ [tl; tl]
            ∧ cells (front ++ [tl]) = (11, 10) :: body (snake round_start)
            ∧ Some (px tl, py tl) = last (cells (snake round_start)))
       ∧ (food_cell s' ∉ cells (snake s'))
       ∧ in_grid (food_cell s'))
  ∧ (∀ k, (k < 1)%nat →
       attempt rnd_ahead (rcalls round_start + burst_draws 16) k
       ∉ (11, 10) :: body (snake round_start) →
       ∃ s', tick rnd_ahead 1 round_start = Done s')
  ∧ (∀ s', tick rnd_ahead 1 round_start ≠ Threw s').
Proof.
  split; [reflexivity|].
  apply (tick_consumes_item rnd_ahead 1 round_start (11, 10)).
  - reflexivity.
  - reflexivity.
  - unfold in_grid, GRID. cbn. lia.
  - apply (bool_decide_unpack _). vm_compute. reflexivity.
  - reflexivity.
Defined.


Lemma after_eat_reachable : reachable rnd_ahead Absent after_eat.
Proof.
  apply (run_reachable rnd_ahead 1 Absent [KeyDown "Enter"; Tick] (init Absent));
    [constructor | reflexivity].
Qed.

Lemma turning_reachable : reachable rnd_ahead Absent turning.
Proof.
  apply (run_reachable rnd_ahead 1 Absent [KeyDown "Enter"; KeyDown "w"]
           (init Absent)); [constructor | reflexivity].
Qed.

(** [after_eat]: all segments but the last are on distinct cells, the last
    two share one. *)
Lemma creature_cells_distinct_witness :
  NoDup (body (snake after_eat))
  ∧ (NoDup (cells (snake after_eat)) ∨ tail_doubled (snake after_eat))
  ∧ (∀ fuel s', phase after_eat = playing →
       tick rnd_ahead fuel after_eat = Done s' →
       phase s' = playing → score s' = score after_eat →
       NoDup (cells (snake s'))).
Proof.
  apply (creature_cells_distinct rnd_ahead Absent after_eat).
  apply after_eat_reachable.
Defined.

(** A state between two ticks in which two segments are on one cell: the
    round of [rnd_ahead] after its first tick, with the cells
    (11,10), (10,10), (9,10), (9,10). *)
Lemma overlapping_segments_reachable :
  reachable rnd_ahead Absent after_eat
  ∧ cells (snake after_eat) = [(11, 10); (10, 10); (9, 10); (9, 10)]
  ∧ ¬ NoDup (cells (snake after_eat)).
Proof.
  split; [apply after_eat_reachable|]. split; [reflexivity|].
  apply (bool_decide_unpack _). vm_compute. reflexivity.
Qed.

(** [turning]: right is committed, up is queued, the lock is set. *)
Lemma queued_direction_never_reverses_witness :
  nextDir turning ≠ opposite (dir turning)
  ∧ (dirLocked turning = true → ∀ fuel key s',
       keydown rnd_ahead fuel key turning = Done s' →
       nextDir s' = nextDir turning)
  ∧ (∀ fuel key s', phase turning = playing →
       keydown rnd_ahead fuel key turning = Done s' →
       nextDir s' ≠ nextDir turning →
       dirLocked turning = false ∧ dirLocked s' = true)
  ∧ (∀ fuel s', phase turning = playing →
       tick rnd_ahead fuel turning = Done s' →
       dirLocked s' = false ∧ dir s' = nextDir turning
       ∧ dir s' ≠ opposite (dir turning))
  ∧ (∀ fuel s' h h', phase turning = playing →
       tick rnd_ahead fuel turning = Done s' →
       phase s' = playing →
       head (snake turning) = Some h → head (snake s') = Some h' →
       Dir (x h' - x h) (y h' - y h) = nextDir turning
       ∧ Dir (x h' - x h) (y h' - y h) ≠ opposite (dir turning)).
Proof.
  apply (queued_direction_never_reverses rnd_ahead Absent turning).
  apply turning_reachable.
Defined.

(** Moving right with nothing queued, the request for left changes nothing
    and the next tick keeps the creature moving right. *)
Lemma reverse_request_rejected_witness :
  keydown rnd_ahead 1 "ArrowLeft" round_start = Done round_start
  ∧ (∀ fuel' s', tick rnd_ahead fuel' round_start = Done s' →
       dir s' = nextDir round_start)
  ∧ (nextDir round_start = dir round_start →
     ∀ fuel' s', tick rnd_ahead fuel' round_start = Done s' →
       dir s' = dir round_start).
Proof.
  apply (reverse_request_rejected rnd_ahead 1 "ArrowLeft" round_start).
  - reflexivity.
  - reflexivity.
Defined.

(** Moving right with a turn upwards queued, the request for left is
    rejected and the next tick turns the creature upwards; and a request for
    left that is rejected with nothing queued does not keep a later request
    for up from being committed by the next tick. *)
Lemma reverse_request_after_queued_turn :
  (reachable rnd_ahead Absent turning
   ∧ phase turning = playing
   ∧ keyToDir "ArrowLeft" = Some (opposite (dir turning))
   ∧ keydown rnd_ahead 1 "ArrowLeft" turning = Done turning
   ∧ ∃ s', tick rnd_ahead 1 turning = Done s' ∧ dir s' ≠ dir turning)
  ∧ (keydown rnd_ahead 1 "ArrowLeft" round_start = Done round_start
     ∧ ∃ s', run rnd_ahead 1 [KeyDown "ArrowLeft"; KeyDown "w"; Tick]
               round_start = Done s'
             ∧ dir s' ≠ dir round_start).
Proof.
  split.
  - split; [apply turning_reachable|].
    split; [reflexivity|]. split; [reflexivity|]. split; [reflexivity|].
    eexists. split; [reflexivity|]. cbn. discriminate.
  - split; [reflexivity|].
    eexists. split; [reflexivity|]. cbn. discriminate.
Qed.

Lemma after_eat_session : session rnd_ahead Absent after_eat 1.
Proof.
  change 1 with (Z.max (Z.max 0 (score round_start)) (score after_eat)).
  apply (session_step rnd_ahead Absent round_start _ 1%nat Tick);
    [|reflexivity].
  apply (session_step rnd_ahead Absent (init Absent) 0 1%nat (KeyDown "Enter"));
    [constructor | reflexivity].
Qed.

(** With -3 in the store, the started round has the round score 0 and the
    best score -3. *)
Lemma negative_stored_best :
  session rnd_ahead (Holds (-3)) below_zero 0
  ∧ best below_zero ≠ Z.max (loadBest (Holds (-3))) 0.
Proof.
  split; [|by vm_compute].
  exact (session_step rnd_ahead (Holds (-3)) (init (Holds (-3))) 0 1%nat
           (KeyDown "Enter") below_zero (session_init _ _) eq_refl).
Qed.

(** A fresh store, one item eaten: the best score is 1 and it is saved. *)
Lemma best_score_running_maximum_witness :
  best after_eat = Z.max (loadBest Absent) 1
  ∧ (∀ fuel e s', handle rnd_ahead fuel e after_eat = Done s' →
       best after_eat ≤ best s'
       ∧ (score s' > best after_eat →
          best s' = score s'
          ∧ stored s' = saveBest (score s') (stored after_eat)))
  ∧ (stored after_eat ≠ Unavailable → loadBest (stored after_eat) = best after_eat).
Proof.
  apply (best_score_running_maximum rnd_ahead Absent after_eat 1).
  - apply after_eat_session.
  - cbn. lia.
Defined.

Lemma full_snake_covers c : in_grid c → c ∈ cells full_snake.
Proof.
  destruct c as [cx cy]. intros [Hx Hy]. cbn [fst snd] in *.
  unfold cells, full_snake. apply list_elem_of_fmap.
  exists (Seg cx cy cx cy). split; [done|].
  apply list_elem_of_bind. exists cy. split; [|apply elem_of_seqZ; lia].
  apply list_elem_of_bind. exists cx. split; [|apply elem_of_seqZ; lia].
  by apply list_elem_of_singleton.
Qed.

(** On the grid covered by [full_snake], no random source and no number of
    iterations make [placeFood] return. *)
Lemma placeFood_full_grid_never_returns :
  ¬ ∃ random fuel, placeFood random fuel grid_full ≠ Hung.
Proof.
  intros (random & fuel & H). apply H, placeFood_full.
  intros c Hc. by apply full_snake_covers.
Qed.

(** The update of [stray_pool] keeps its particle, moved to [x = 601] with
    three quarters of its life left. *)
Lemma stray_pool_update random Math_cos Math_sin Math_PI :
  particles (updateParticles random Math_cos Math_sin Math_PI stray_pool)
  = [drift stray]
  ∧ (p_x (drift stray) == 601)%Q ∧ (p_life (drift stray) == 3 # 4)%Q.
Proof. split; [reflexivity|]. split; reflexivity. Qed.

(** So a particle outside the visible area, even with the margin of 10,
    survives an update with its life positive. *)
Lemma stray_particle_survives :
  ¬ ∀ random Math_cos Math_sin Math_PI p,
      p ∈ particles (updateParticles random Math_cos Math_sin Math_PI stray_pool) →
      outside_visible 10 p → (p_life p <= 0)%Q.
Proof.
  intros H.
  specialize (H (λ _, U01 0 0) (λ _, 0%Q) (λ _, 0%Q) 3%Q (drift stray)).
  assert (Hle : (p_life (drift stray) <= 0)%Q).
  { apply H.
    - cbn. by left.
    - unfold outside_visible. right. left. by vm_compute. }
  by vm_compute in Hle.
Qed.
